(** * VoltDB C++ client: the invocation response and the client event loop

    A shallow embedding of [include/InvocationResponse.hpp] and of the
    [drain] entry point declared in [include/Client.h], with the properties
    the specification states about them.

    Layout: fixed-width integers and byte codecs, the byte buffer, the
    table container, the response class (its three constructors, its
    accessors and its stream writer), the wire layout as the specification
    words it, the event loop; then the lemmas and the theorems. *)

From Stdlib Require Import ZArith List Lia String Ascii Bool.
From Stdlib.Strings Require Import Byte.
From Stdlib Require Import DecimalString.
From stdpp Require Import base option list gmap.
Import ListNotations.
Local Open Scope Z_scope.

(* ===================================================================== *)
(** ** Fixed-width integers *)
(* ===================================================================== *)

Module Int.

(** The value of the low [w] bits of [z] read as a two's-complement
    signed integer: what a C++ conversion to [intw_t] yields. *)
Definition wrap (w : Z) (z : Z) : Z :=
  let m := z mod 2 ^ w in
  if m <? 2 ^ (w - 1) then m else m - 2 ^ w.

Definition in_range (w : Z) (z : Z) : Prop :=
  - 2 ^ (w - 1) <= z < 2 ^ (w - 1).

Definition INT8_MIN : Z := -128.
Definition INT32_MAX : Z := 2147483647.

(** [int32_t + int32_t]; the wrap-around is written out. *)
Definition int32_add (a b : Z) : Z := wrap 32 (a + b).

(** Width of [size_t] on the LP64 targets the client is built for. *)
Definition size_t_bits : Z := 64.

(** [static_cast<size_t>(z)]. *)
Definition to_size_t (z : Z) : Z := z mod 2 ^ size_t_bits.

(** An upper bound of [std::vector<T>::max_size()], reached for
    one-byte elements; [resize] beyond it throws [std::length_error]. *)
Definition vector_max_size : Z := 2 ^ (size_t_bits - 1) - 1.

End Int.

(* ===================================================================== *)
(** ** Bytes and byte orders *)
(* ===================================================================== *)

Module Bytes.

Definition byte_to_Z (b : byte) : Z := Z.of_N (Byte.to_N b).

(** The byte holding the low eight bits of [z]. *)
Definition byte_of_Z (z : Z) : byte :=
  match Byte.of_N (Z.to_N (z mod 256)) with
  | Some b => b
  | None => "000"%byte
  end.

(** Unsigned value of a big-endian byte sequence. *)
Definition be_decode (bs : list byte) : Z :=
  fold_left (fun acc b => acc * 256 + byte_to_Z b) bs 0.

(** The [n] low bytes of [z], most significant first. *)
Fixpoint be_encode (n : nat) (z : Z) : list byte :=
  match n with
  | O => []
  | S n' => be_encode n' (z / 256) ++ [byte_of_Z z]
  end.

(** Signed value of a big-endian two's-complement byte sequence. *)
Definition be_signed (bs : list byte) : Z :=
  Int.wrap (8 * Z.of_nat (length bs)) (be_decode bs).

(** The bytes of a [std::string] and back. *)
Definition string_bytes (s : string) : list byte := list_byte_of_string s.
Definition bytes_string (bs : list byte) : string := string_of_list_byte bs.

End Bytes.

(* ===================================================================== *)
(** ** Outcomes *)
(* ===================================================================== *)

(** What a constructor or a buffer operation can end in other than a
    value. *)
Inductive error : Type :=
| Overrun               (* a read would cross the buffer's limit *)
| IndexOutOfBounds      (* a cursor or limit set outside the region *)
| AssertionFailure      (* an [assert] of the source does not hold *)
| LengthError           (* [std::length_error] from a resize *)
| UndefinedBehaviour    (* a read past the end of the allocated region *)
| StreamFailure         (* a stream read came up short *)
| NoConnections.        (* no usable connection for the event loop *)

Inductive result (A : Type) : Type :=
| Ok (a : A)
| Err (e : error).
Arguments Ok {A} a.
Arguments Err {A} e.

(** Code that threads a state [S] and may fail. *)
Definition St (S A : Type) : Type := S -> result (A * S).

Definition ret {S A} (a : A) : St S A := fun s => Ok (a, s).

Definition bind {S A B} (m : St S A) (f : A -> St S B) : St S B :=
  fun s => match m s with
           | Ok (a, s') => f a s'
           | Err e => Err e
           end.

Definition throw {S A} (e : error) : St S A := fun _ => Err e.

Declare Scope st_scope.
Delimit Scope st_scope with st.
Notation "x <- c1 ;; c2" := (bind c1 (fun x => c2))
  (at level 100, c1 at next level, right associativity) : st_scope.
Notation "c1 ;; c2" := (bind c1 (fun _ => c2))
  (at level 100, right associativity) : st_scope.

(* ===================================================================== *)
(** ** The byte buffer *)
(* ===================================================================== *)

Module ByteBuffer.

(** Modelled from the spec: [ByteBuffer.hpp] is not among the sources.
    A buffer is a view on a shared byte region: the region, where the
    view starts in it, the [position] cursor, and the [limit]; the
    capacity is the length of the view. *)
Record SharedByteBuffer : Type := mkBuffer {
  m_buffer : list byte;
  m_offset : Z;
  m_position : Z;
  m_capacity : Z;
  m_limit : Z
}.

(** Modelled from the spec: buffer operations thread the buffer and may
    fail. *)
Definition M (A : Type) : Type := St SharedByteBuffer A.

(** [assert(c)] of a build with assertions enabled. *)
Definition assert (c : bool) : M unit :=
  if c then ret tt else throw AssertionFailure.

(** Modelled from the spec: the buffer with its cursor replaced. *)
Definition with_position (p : Z) (b : SharedByteBuffer) : SharedByteBuffer :=
  mkBuffer (m_buffer b) (m_offset b) p (m_capacity b) (m_limit b).

(** Modelled from the spec: the buffer with its limit replaced. *)
Definition with_limit (l : Z) (b : SharedByteBuffer) : SharedByteBuffer :=
  mkBuffer (m_buffer b) (m_offset b) (m_position b) (m_capacity b) l.

(** Modelled from the spec: [SharedByteBuffer(data, length)], the view of
    the first [length] bytes of [data], cursor at 0. *)
Definition SharedByteBuffer_new (data : list byte) (length : Z) : SharedByteBuffer :=
  mkBuffer data 0 0 length length.

(** Modelled from the spec: the buffer of the constructor with its
    cursor at [p]. *)
Definition buffer_at (data : list byte) (length : Z) (p : Z) : SharedByteBuffer :=
  mkBuffer data 0 p length length.

(** Modelled from the spec: the [n] bytes of the region under the
    cursor. *)
Definition bytes_at (b : SharedByteBuffer) (n : Z) : list byte :=
  take (Z.to_nat n) (drop (Z.to_nat (m_offset b + m_position b)) (m_buffer b)).

(** Modelled from the spec: the raw read of [n] bytes. It advances
    [position] and fails with [Overrun] if it would cross [limit]; a
    negative count is refused the same way. A read the limit allows but
    the region does not hold is undefined behaviour in C++. *)
Definition get (n : Z) : M (list byte) := fun b =>
  if (n <? 0) || (m_limit b - m_position b <? n) then Err Overrun
  else
    let bs := bytes_at b n in
    if Z.of_nat (length bs) =? n
    then Ok (bs, with_position (m_position b + n) b)
    else Err UndefinedBehaviour.

(** Modelled from the spec: integers are big-endian two's complement. *)
Definition getInt8 : M Z := bind (get 1) (fun bs => ret (Bytes.be_signed bs)).
Definition getInt16 : M Z := bind (get 2) (fun bs => ret (Bytes.be_signed bs)).
Definition getInt32 : M Z := bind (get 4) (fun bs => ret (Bytes.be_signed bs)).
Definition getInt64 : M Z := bind (get 8) (fun bs => ret (Bytes.be_signed bs)).

(** Modelled from the spec: a string is a 4-byte signed length followed
    by its bytes; length -1 signals null through the [wasNull]
    reference, which is otherwise left as it was. *)
Definition getString (wasNull : bool) : M (string * bool) :=
  bind getInt32 (fun len =>
    if len =? -1 then ret (EmptyString, true)
    else bind (get len) (fun bs => ret (Bytes.bytes_string bs, wasNull))).

(** Modelled from the spec: [position()] and [limit()] read the cursor
    and the limit. *)
Definition position : M Z := fun b => Ok (m_position b, b).
Definition limit : M Z := fun b => Ok (m_limit b, b).

(** Modelled from the spec: [position(p)] moves the cursor anywhere from
    0 to [limit]. *)
Definition set_position (p : Z) : M unit := fun b =>
  if (p <? 0) || (m_limit b <? p) then Err IndexOutOfBounds
  else Ok (tt, with_position p b).

(** Modelled from the spec: [limit(l)] sets the limit anywhere from 0 to
    the capacity. *)
Definition set_limit (l : Z) : M unit := fun b =>
  if (l <? 0) || (m_capacity b <? l) then Err IndexOutOfBounds
  else Ok (tt, with_limit l b).

(** Modelled from the spec: [slice()] yields a view sharing the region,
    from the current [position] to [limit], and consumes those bytes. *)
Definition slice : M SharedByteBuffer := fun b =>
  let n := m_limit b - m_position b in
  Ok (mkBuffer (m_buffer b) (m_offset b + m_position b) 0 n n,
      with_position (m_limit b) b).

(** Modelled from the spec: the bytes a view spans, from its start to
    its limit. *)
Definition contents (b : SharedByteBuffer) : list byte :=
  take (Z.to_nat (m_limit b)) (drop (Z.to_nat (m_offset b)) (m_buffer b)).

End ByteBuffer.

Import ByteBuffer.

(* ===================================================================== *)
(** ** The table container *)
(* ===================================================================== *)

(** Modelled from the spec: [Table.h] is not among the sources. The
    response treats a table as an opaque slice of the received bytes; what
    the table's own parser makes of them is outside this development. *)
Record Table : Type := mkTable {
  table_buffer : SharedByteBuffer
}.

(** Modelled from the spec: the default table of a resized vector, a view
    of no bytes. *)
Definition Table_default : Table := mkTable (mkBuffer [] 0 0 0 0).

(* ===================================================================== *)
(** ** Status codes *)
(* ===================================================================== *)

Inductive StatusCode : Type :=
| STATUS_CODE_SUCCESS
| STATUS_CODE_USER_ABORT
| STATUS_CODE_GRACEFUL_FAILURE
| STATUS_CODE_UNEXPECTED_FAILURE
| STATUS_CODE_CONNECTION_LOST.

(** The enumerators' values. *)
Definition StatusCode_value (c : StatusCode) : Z :=
  match c with
  | STATUS_CODE_SUCCESS => 1
  | STATUS_CODE_USER_ABORT => -1
  | STATUS_CODE_GRACEFUL_FAILURE => -2
  | STATUS_CODE_UNEXPECTED_FAILURE => -3
  | STATUS_CODE_CONNECTION_LOST => -4
  end.

(* ===================================================================== *)
(** ** The invocation response *)
(* ===================================================================== *)

Record InvocationResponse : Type := mkResponse {
  m_clientData : Z;
  m_statusCode : Z;
  m_statusString : string;
  m_appStatusCode : Z;
  m_appStatusString : string;
  m_clusterRoundTripTime : Z;
  m_results : list Table
}.

(** [InvocationResponse()] *)
Definition InvocationResponse_default : InvocationResponse :=
  {| m_clientData := 0;
     m_statusCode := StatusCode_value STATUS_CODE_CONNECTION_LOST;
     m_statusString := "Connection to the database was lost";
     m_appStatusCode := Int.INT8_MIN;
     m_appStatusString := EmptyString;
     m_clusterRoundTripTime := 0;
     m_results := [] |}.

(** [m_results.resize(n)] on the empty vector. *)
Definition vector_resize (n : Z) : M (list Table) :=
  if Int.vector_max_size <? n then throw LengthError
  else ret (replicate (Z.to_nat n) Table_default).

(** One turn of the loop over the announced tables: table [ii] is built
    from the slice its length prefix bounds, and the limit is put back. *)
Definition read_table (startLimit : Z) (ii : nat) (results : list Table)
  : M (list Table) :=
  (tableLength <- getInt32 ;;
   assert (4 <=? tableLength) ;;
   pos <- position ;;
   set_limit (Int.int32_add pos tableLength) ;;
   s <- slice ;;
   let results := <[ii := mkTable s]> results in
   set_limit startLimit ;;
   ret results)%st.

(** [for (size_t ii = 0; ii < resultCount; ii++)], with [n] turns left. *)
Fixpoint read_tables (n : nat) (startLimit : Z) (ii : nat) (results : list Table)
  : M (list Table) :=
  match n with
  | O => ret results
  | S n' =>
      (results <- read_table startLimit ii results ;;
       read_tables n' startLimit (S ii) results)%st
  end.

(** The body of [InvocationResponse(data, length)] on its buffer. *)
Definition parse_response : M InvocationResponse :=
  (version <- getInt8 ;;
   assert (version =? 0) ;;
   clientData <- getInt64 ;;
   presentFields <- getInt8 ;;
   statusCode <- getInt8 ;;
   let wasNull := false in
   s1 <- (if negb (Z.land presentFields (Z.shiftl 1 5) =? 0)
          then getString wasNull else ret (EmptyString, wasNull)) ;;
   let statusString := fst s1 in
   let wasNull := snd s1 in
   appStatusCode <- getInt8 ;;
   s2 <- (if negb (Z.land presentFields (Z.shiftl 1 7) =? 0)
          then getString wasNull else ret (EmptyString, wasNull)) ;;
   let appStatusString := fst s2 in
   let wasNull := snd s2 in
   assert (negb wasNull) ;;
   clusterRoundTripTime <- getInt32 ;;
   (if negb (Z.land presentFields (Z.shiftl 1 6) =? 0)
    then (pos <- position ;;
          let position := Int.int32_add pos 4 in
          len <- getInt32 ;;
          set_position (Int.int32_add position len))
    else ret tt) ;;
   count <- getInt16 ;;
   let resultCount := Int.to_size_t count in
   results <- vector_resize resultCount ;;
   startLimit <- limit ;;
   results <- read_tables (Z.to_nat resultCount) startLimit 0 results ;;
   ret {| m_clientData := clientData;
          m_statusCode := statusCode;
          m_statusString := statusString;
          m_appStatusCode := appStatusCode;
          m_appStatusString := appStatusString;
          m_clusterRoundTripTime := clusterRoundTripTime;
          m_results := results |})%st.

(** [InvocationResponse(boost::shared_array<char>& data, int32_t length)] *)
Definition InvocationResponse_parse (data : list byte) (length : Z)
  : result InvocationResponse :=
  match parse_response (SharedByteBuffer_new data length) with
  | Ok (r, _) => Ok r
  | Err e => Err e
  end.

(** The accessors. *)
Definition clientData (r : InvocationResponse) : Z := m_clientData r.
Definition statusCode (r : InvocationResponse) : Z := m_statusCode r.
Definition success (r : InvocationResponse) : bool :=
  m_statusCode r =? StatusCode_value STATUS_CODE_SUCCESS.
Definition failure (r : InvocationResponse) : bool :=
  negb (m_statusCode r =? StatusCode_value STATUS_CODE_SUCCESS).
Definition statusString (r : InvocationResponse) : string := m_statusString r.
Definition appStatusCode (r : InvocationResponse) : Z := m_appStatusCode r.
Definition appStatusString (r : InvocationResponse) : string := m_appStatusString r.
Definition clusterRoundTripTime (r : InvocationResponse) : Z := m_clusterRoundTripTime r.
Definition results (r : InvocationResponse) : list Table := m_results r.


(* ===================================================================== *)
(** ** Text and stream forms of a response *)
(* ===================================================================== *)

Definition endl : string := String (ascii_of_nat 10) EmptyString.

(** [ostream << n] for an integer. *)
Definition show_int (z : Z) : string := NilZero.string_of_int (Z.to_int z).

(** An input stream: the bytes not yet read. A read that comes up short
    leaves its target indeterminate, which ends the model. *)
Definition istream_read (n : Z) : St (list byte) (list byte) := fun s =>
  if Z.of_nat (length s) <? n then Err StreamFailure
  else Ok (take (Z.to_nat n) s, drop (Z.to_nat n) s).

Section TableInterface.

(** What [Table.h] provides and the response calls: the text of a table
    under an indent, its stream form, and its constructor from a
    stream. *)
Variable Table_toString : Table -> string -> string.
Variable Table_write : Table -> list byte.
Variable Table_read : St (list byte) Table.

(** Whether the host stores integers most significant byte first. *)
Variable big_endian_host : bool.

(** The object representation of an integer of [n] bytes. *)
Definition native_encode (n : nat) (z : Z) : list byte :=
  if big_endian_host then Bytes.be_encode n z else rev (Bytes.be_encode n z).

Definition native_signed (bs : list byte) : Z :=
  Bytes.be_signed (if big_endian_host then bs else rev bs).

Definition native_unsigned (bs : list byte) : Z :=
  Bytes.be_decode (if big_endian_host then bs else rev bs).

(** The loop of [toString] over the tables, from index [ii]. *)
Fixpoint toString_tables (ii : nat) (ts : list Table) : string :=
  match ts with
  | [] => EmptyString
  | t :: ts' =>
      ("Result Table " ++ show_int (Z.of_nat ii) ++ endl
       ++ Table_toString t "    " ++ toString_tables (S ii) ts')%string
  end.

Definition toString (r : InvocationResponse) : string :=
  ("Status: " ++ show_int (statusCode r) ++ ", " ++ statusString r ++ endl
   ++ "App Status: " ++ show_int (appStatusCode r) ++ ", " ++ appStatusString r ++ endl
   ++ "Client Data: " ++ show_int (clientData r) ++ endl
   ++ "Cluster Round Trip Time: " ++ show_int (clusterRoundTripTime r) ++ endl
   ++ toString_tables 0 (m_results r))%string.

(** [writeString]: the size as an [int32_t], then the bytes unless the
    size is zero. *)
Definition writeString (ostream : list byte) (str : string) : list byte :=
  let size := Int.wrap 32 (Z.of_nat (String.length str)) in
  let ostream := ostream ++ native_encode 4 size in
  if negb (size =? 0)
  then ostream ++ take (Z.to_nat size) (Bytes.string_bytes str)
  else ostream.

(** [readString]: [str.resize(size)] throws for a negative size. *)
Definition readString : St (list byte) string :=
  (sz <- istream_read 4 ;;
   let size := native_signed sz in
   if negb (size =? 0)
   then (if size <? 0 then throw LengthError
         else (bs <- istream_read size ;; ret (Bytes.bytes_string bs)))
   else ret EmptyString)%st.

(** [operator >>]: what it appends to the output stream. *)
Definition write_to_stream (r : InvocationResponse) (ostream : list byte) : list byte :=
  let ostream := ostream ++ native_encode 1 (m_statusCode r) in
  let ostream := writeString ostream (m_statusString r) in
  let ostream := ostream ++ native_encode 1 (m_appStatusCode r) in
  let ostream := writeString ostream (m_appStatusString r) in
  let ostream := ostream ++ native_encode 8 (m_clientData r) in
  let ostream := ostream ++ native_encode 4 (m_clusterRoundTripTime r) in
  let size := Z.of_nat (length (m_results r)) in
  let ostream := ostream ++ native_encode 8 size in
  fold_left (fun o t => o ++ Table_write t) (m_results r) ostream.

(** The loop of the stream constructor over the tables. *)
Fixpoint read_stream_tables (n : nat) (ii : nat) (results : list Table)
  : St (list byte) (list Table) :=
  match n with
  | O => ret results
  | S n' =>
      (t <- Table_read ;;
       read_stream_tables n' (S ii) (<[ii := t]> results))%st
  end.

(** The body of [InvocationResponse(std::istream&)]. *)
Definition read_response : St (list byte) InvocationResponse :=
  (sc <- istream_read 1 ;;
   statusString <- readString ;;
   asc <- istream_read 1 ;;
   appStatusString <- readString ;;
   cd <- istream_read 8 ;;
   crt <- istream_read 4 ;;
   sz <- istream_read 8 ;;
   let size := native_unsigned sz in
   results <- (if Int.vector_max_size <? size then throw LengthError
               else ret (replicate (Z.to_nat size) Table_default)) ;;
   results <- read_stream_tables (Z.to_nat size) 0 results ;;
   ret {| m_clientData := native_signed cd;
          m_statusCode := native_signed sc;
          m_statusString := statusString;
          m_appStatusCode := native_signed asc;
          m_appStatusString := appStatusString;
          m_clusterRoundTripTime := native_signed crt;
          m_results := results |})%st.

(** [InvocationResponse(std::istream &istream)] *)
Definition InvocationResponse_from_stream (istream : list byte)
  : result InvocationResponse :=
  match read_response istream with
  | Ok (r, _) => Ok r
  | Err e => Err e
  end.

(** The public accessors, and what each returns. *)
Inductive accessor : Type :=
| call_clientData | call_statusCode | call_success | call_failure
| call_statusString | call_appStatusCode | call_appStatusString
| call_clusterRoundTripTime | call_results | call_toString.

Inductive value : Type :=
| VInt (z : Z)
| VBool (b : bool)
| VString (s : string)
| VTables (ts : list Table).

(** A call of an accessor on the object [this]: the value returned and
    the object after the call. All ten are [const] member functions
    returning by value. *)
Definition call (a : accessor) (this : InvocationResponse)
  : value * InvocationResponse :=
  match a with
  | call_clientData => (VInt (clientData this), this)
  | call_statusCode => (VInt (statusCode this), this)
  | call_success => (VBool (success this), this)
  | call_failure => (VBool (failure this), this)
  | call_statusString => (VString (statusString this), this)
  | call_appStatusCode => (VInt (appStatusCode this), this)
  | call_appStatusString => (VString (appStatusString this), this)
  | call_clusterRoundTripTime => (VInt (clusterRoundTripTime this), this)
  | call_results => (VTables (results this), this)
  | call_toString => (VString (toString this), this)
  end.

(** A sequence of accessor calls on one object: the object after them. *)
Definition calls (l : list accessor) (this : InvocationResponse) : InvocationResponse :=
  fold_left (fun o a => snd (call a o)) l this.

End TableInterface.

(** The representation invariant of the class: every field holds a value
    of its C++ type. The three constructors establish it and nothing
    changes a response afterwards. *)
Record valid_response (r : InvocationResponse) : Prop := {
  valid_clientData : Int.in_range 64 (m_clientData r);
  valid_statusCode : Int.in_range 8 (m_statusCode r);
  valid_statusString : Z.of_nat (String.length (m_statusString r)) <= Int.INT32_MAX;
  valid_appStatusCode : Int.in_range 8 (m_appStatusCode r);
  valid_appStatusString : Z.of_nat (String.length (m_appStatusString r)) <= Int.INT32_MAX;
  valid_clusterRoundTripTime : Int.in_range 32 (m_clusterRoundTripTime r);
  valid_results : Z.of_nat (length (m_results r)) <= Int.vector_max_size
}.

(** A response with a status string and one table, for examples. *)
Definition response_sample : InvocationResponse :=
  mkResponse 7 (-2) "constraint" (-128) EmptyString 12 [Table_default].

(** Tables laid out one behind the other from cursor [p] of the region
    [data], inside its first [k] bytes: each is the view of the bytes
    behind its own 4-byte length prefix, and the next prefix follows the
    last byte of the view. *)
Fixpoint tables_laid_out (data : list byte) (k : Z) (p : Z) (ts : list Table) : Prop :=
  match ts with
  | [] => p <= k
  | t :: ts' =>
      let n := m_limit (table_buffer t) in
      table_buffer t = mkBuffer data (p + 4) 0 n n
      /\ Bytes.be_signed (take 4 (drop (Z.to_nat p) data)) = n
      /\ 4 <= n
      /\ tables_laid_out data k (p + 4 + n) ts'
  end.

(* ===================================================================== *)
(** ** The wire layout, as the specification words it *)
(* ===================================================================== *)

Module Wire.

(** What a peer puts into an invocation-response payload. A string is
    [None] when it is sent as null; [exception] and the strings are on
    the wire only when their presence bit is set. *)
Record frame : Type := mkFrame {
  version : Z;
  clientData : Z;
  presentFields : Z;
  statusCode : Z;
  statusString : option string;
  appStatusCode : Z;
  appStatusString : option string;
  clusterRoundTripTime : Z;
  exception : list byte;
  resultCount : Z;
  tables : list (list byte)
}.

Definition has_statusString (f : frame) : bool := Z.testbit (presentFields f) 5.
Definition has_exception (f : frame) : bool := Z.testbit (presentFields f) 6.
Definition has_appStatusString (f : frame) : bool := Z.testbit (presentFields f) 7.

(** A 4-byte signed length (-1 for null) followed by the bytes. *)
Definition encode_string (s : option string) : list byte :=
  match s with
  | None => Bytes.be_encode 4 (-1)
  | Some str =>
      Bytes.be_encode 4 (Z.of_nat (String.length str)) ++ Bytes.string_bytes str
  end.

(** [int32 length] and [length] bytes. *)
Definition encode_block (bs : list byte) : list byte :=
  Bytes.be_encode 4 (Z.of_nat (length bs)) ++ bs.

Definition encode_optional (present : bool) (bs : list byte) : list byte :=
  if present then bs else [].

(** The payload up to and including [resultCount]. *)
Definition encode_head (f : frame) : list byte :=
  Bytes.be_encode 1 (version f)
  ++ Bytes.be_encode 8 (clientData f)
  ++ Bytes.be_encode 1 (presentFields f)
  ++ Bytes.be_encode 1 (statusCode f)
  ++ encode_optional (has_statusString f) (encode_string (statusString f))
  ++ Bytes.be_encode 1 (appStatusCode f)
  ++ encode_optional (has_appStatusString f) (encode_string (appStatusString f))
  ++ Bytes.be_encode 4 (clusterRoundTripTime f)
  ++ encode_optional (has_exception f) (encode_block (exception f))
  ++ Bytes.be_encode 2 (resultCount f).

(** The tables, each behind its [int32 tableLength]. *)
Definition encode_tables (ts : list (list byte)) : list byte :=
  concat (map encode_block ts).

(** The whole payload, in wire order. *)
Definition encode (f : frame) : list byte :=
  encode_head f ++ encode_tables (tables f).

Definition string_fits (s : option string) : Prop :=
  match s with
  | None => True
  | Some str => Z.of_nat (String.length str) <= Int.INT32_MAX
  end.

(** Every field fits the integer type the layout gives it, every length
    fits its prefix, and the tables are those the count announces when
    it announces any. *)
Record shaped (f : frame) : Prop := {
  shaped_version : Int.in_range 8 (version f);
  shaped_clientData : Int.in_range 64 (clientData f);
  shaped_presentFields : Int.in_range 8 (presentFields f);
  shaped_statusCode : Int.in_range 8 (statusCode f);
  shaped_statusString : string_fits (statusString f);
  shaped_appStatusCode : Int.in_range 8 (appStatusCode f);
  shaped_appStatusString : string_fits (appStatusString f);
  shaped_clusterRoundTripTime : Int.in_range 32 (clusterRoundTripTime f);
  shaped_exception : Z.of_nat (length (exception f)) <= Int.INT32_MAX;
  shaped_resultCount : Int.in_range 16 (resultCount f);
  shaped_table_lengths :
    Forall (fun t => Z.of_nat (length t) <= Int.INT32_MAX) (tables f);
  shaped_tables : 0 <= resultCount f -> resultCount f = Z.of_nat (length (tables f))
}.

Definition string_present (present : bool) (s : option string) : Prop :=
  present = true -> s <> None.

(** A well-formed frame: version 0, no null string behind a set
    presence bit, a count that is not negative, and tables of at least
    four bytes. *)
Record well_formed (f : frame) : Prop := {
  wf_version : version f = 0;
  wf_statusString : string_present (has_statusString f) (statusString f);
  wf_appStatusString : string_present (has_appStatusString f) (appStatusString f);
  wf_resultCount : 0 <= resultCount f;
  wf_tables : Forall (fun t => 4 <= Z.of_nat (length t)) (tables f)
}.

Definition is_null (s : option string) : bool :=
  match s with None => true | Some _ => false end.

Definition string_value (present : bool) (s : option string) : string :=
  if present then default EmptyString s else EmptyString.

(** Where in a region the payload of table [ii] starts, the tables
    starting at [start]. *)
Fixpoint table_views (data : list byte) (start : Z) (ts : list (list byte))
  : list Table :=
  match ts with
  | [] => []
  | t :: ts' =>
      let n := Z.of_nat (length t) in
      mkTable (mkBuffer data (start + 4) 0 n n)
      :: table_views data (start + 4 + n) ts'
  end.

(** The response a well-formed frame stands for, its tables being views
    of the region [data] the frame was received in. *)
Definition response_of (data : list byte) (f : frame) : InvocationResponse :=
  {| m_clientData := clientData f;
     m_statusCode := statusCode f;
     m_statusString := string_value (has_statusString f) (statusString f);
     m_appStatusCode := appStatusCode f;
     m_appStatusString := string_value (has_appStatusString f) (appStatusString f);
     m_clusterRoundTripTime := clusterRoundTripTime f;
     m_results := table_views data (Z.of_nat (length (encode_head f))) (tables f) |}.

(** The frames of the end-to-end scenarios: the answer to [@Ping]
    (status 1, no status string, no table), the answer to [Bad]
    (status -2, status string "constraint", no table), and a frame with
    every optional part and two tables. *)
Definition frame_ping : frame :=
  mkFrame 0 1 0 1 None (-128) None 3 [] 0 [].

Definition frame_bad : frame :=
  mkFrame 0 2 32 (-2) (Some "constraint"%string) (-128) None 7 [] 0 [].

Definition frame_full : frame :=
  mkFrame 0 258 (-32) (-1) (Some "abort"%string) 5 (Some "app"%string) 40
          (Bytes.string_bytes "stack trace") 2
          [Bytes.be_encode 4 1; Bytes.be_encode 6 2].

(** The frame of [frame_full] with its status string sent as null. *)
Definition frame_null : frame :=
  mkFrame 0 258 (-32) (-1) None 5 (Some "app"%string) 40
          (Bytes.string_bytes "stack trace") 2
          [Bytes.be_encode 4 1; Bytes.be_encode 6 2].

End Wire.

(* ===================================================================== *)
(** ** The event loop *)
(* ===================================================================== *)

Module Client.

(** Modelled from the spec: the states of a connection. [ClientImpl] and
    the connection code are not among the sources; [Client.h] only
    declares the entry points. *)
Inductive ConnectionState : Type :=
| Connecting | Authenticating | Ready | Draining | Closed.

(** Modelled from the spec: a callback receives one response and
    returns whether to break the event loop. *)
Definition Callback : Type := InvocationResponse -> bool.

(** Modelled from the spec: a connection, with its map from client-data
    handle to pending call. *)
Record Connection : Type := mkConnection {
  conn_state : ConnectionState;
  conn_pending : gmap Z Callback
}.

(** Modelled from the spec: the dispatcher, its connections in
    insertion order and the break-flag. *)
Record Dispatcher : Type := mkDispatcher {
  connections : list Connection;
  break_flag : bool
}.

(** Modelled from the spec: what the I/O dispatcher reports ready: a
    complete frame read on a connection, or a socket error or close. *)
Inductive Event : Type :=
| FrameRead (conn : nat) (frame : list byte)
| SocketLost (conn : nat).

(** Modelled from the spec: a connection in [Ready]. *)
Definition is_ready (c : Connection) : bool :=
  match conn_state c with Ready => true | _ => false end.

(** Modelled from the spec: the usable connections are those in
    [Ready]. *)
Definition usable (d : Dispatcher) : list Connection :=
  filter (fun c => is_ready c = true) (connections d).

(** Modelled from the spec: every connection's pending-call map is
    empty. *)
Definition drained (d : Dispatcher) : bool :=
  forallb (fun c => Nat.eqb (size (conn_pending c)) 0) (connections d).

(** Modelled from the spec: closing a connection synthesizes a
    [CONNECTION_LOST] response for every pending call; a callback that
    asks for it sets the break-flag. *)
Definition connection_lost (i : nat) (d : Dispatcher) : Dispatcher :=
  match connections d !! i with
  | None => d
  | Some c =>
      let asked :=
        existsb (fun kv => snd kv InvocationResponse_default)
                (map_to_list (conn_pending c)) in
      mkDispatcher (<[i := mkConnection Closed ∅]> (connections d))
                   (break_flag d || asked)
  end.

(** Modelled from the spec: [on_response] parses the frame, looks the
    client data up in the connection's map, removes the call and
    invokes its callback once; an unknown handle drops the response and
    a malformed frame closes the connection. *)
Definition on_response (i : nat) (frame : list byte) (d : Dispatcher) : Dispatcher :=
  match connections d !! i with
  | None => d
  | Some c =>
      match InvocationResponse_parse frame (Z.of_nat (length frame)) with
      | Err _ => connection_lost i d
      | Ok r =>
          match conn_pending c !! clientData r with
          | None => d
          | Some callback =>
              let c' := mkConnection (conn_state c) (delete (clientData r) (conn_pending c)) in
              mkDispatcher (<[i := c']> (connections d))
                           (break_flag d || callback r)
          end
      end
  end.

(** Modelled from the spec: one ready event, handled. *)
Definition handle (d : Dispatcher) (e : Event) : Dispatcher :=
  match e with
  | FrameRead i frame => on_response i frame d
  | SocketLost i => connection_lost i d
  end.

(** Modelled from the spec: one pump of the I/O dispatcher processes
    all ready events, then returns. *)
Definition pump (d : Dispatcher) (ready : list Event) : Dispatcher :=
  fold_left handle ready d.

(** Modelled from the spec: the dispatcher after the first [n] pumps of
    a run. *)
Definition pumped (d : Dispatcher) (run : list (list Event)) (n : nat) : Dispatcher :=
  fold_left pump (take n run) d.

(** Modelled from the spec: how a call of [drain] ends: it returns, it
    throws, or it waits for I/O that the run does not bring. *)
Inductive outcome : Type :=
| Returned (b : bool) (d : Dispatcher)
| Thrown (e : error)
| Waiting (d : Dispatcher).

(** Modelled from the spec: pump until every pending-call map is empty
    or the break-flag fires. [run] lists what each pump finds ready. *)
Fixpoint drain_loop (run : list (list Event)) (d : Dispatcher) : outcome :=
  if drained d then Returned true d
  else if break_flag d then Returned false d
  else match run with
       | [] => Waiting d
       | ready :: run' => drain_loop run' (pump d ready)
       end.

(** Modelled from the spec: [drain] fails with [NoConnections] when
    invoked with zero usable connections. *)
Definition drain (d : Dispatcher) (run : list (list Event)) : outcome :=
  match usable d with
  | [] => Thrown NoConnections
  | _ :: _ => drain_loop run d
  end.

(** A dispatcher with one ready connection and the three calls of
    scenario E5 in flight, none of which asks to break the loop, and a
    dispatcher waiting for the answer to [@Ping]. *)
Definition dispatcher_three_calls : Dispatcher :=
  mkDispatcher
    [mkConnection Ready
       (<[1 := fun _ => false]> (<[2 := fun _ => false]> (<[3 := fun _ => false]> ∅)))]
    false.

Definition dispatcher_ping : Dispatcher :=
  mkDispatcher [mkConnection Ready (<[1 := fun r => negb (success r)]> ∅)] false.

End Client.
(* ===================================================================== *)
(** ** Integers and bytes: lemmas *)
(* ===================================================================== *)

Lemma wrap_mod w z : Int.wrap w (z mod 2 ^ w) = Int.wrap w z.
Proof. unfold Int.wrap. now rewrite Zmod_mod. Qed.

Lemma wrap_in_range w z : 0 < w -> Int.in_range w z -> Int.wrap w z = z.
Proof.
  unfold Int.wrap, Int.in_range. intros Hw Hz.
  assert (Hp : 2 ^ w = 2 * 2 ^ (w - 1)).
  { rewrite <- Z.pow_succ_r by lia. f_equal. lia. }
  assert (0 < 2 ^ (w - 1)) by (apply Z.pow_pos_nonneg; lia).
  destruct (Z_lt_dec z 0) as [Hneg|Hpos].
  - replace (z mod 2 ^ w) with (z + 2 ^ w).
    + destruct (Z.ltb_spec (z + 2 ^ w) (2 ^ (w - 1))); lia.
    + apply Z.mod_unique with (q := -1); lia.
  - rewrite Z.mod_small by lia.
    destruct (Z.ltb_spec z (2 ^ (w - 1))); lia.
Qed.

Lemma wrap_range w z : 0 < w -> Int.in_range w (Int.wrap w z).
Proof.
  unfold Int.wrap, Int.in_range. intros Hw.
  assert (Hp : 2 ^ w = 2 * 2 ^ (w - 1)).
  { rewrite <- Z.pow_succ_r by lia. f_equal. lia. }
  assert (0 < 2 ^ (w - 1)) by (apply Z.pow_pos_nonneg; lia).
  pose proof (Z.mod_pos_bound z (2 ^ w) ltac:(lia)).
  destruct (Z.ltb_spec (z mod 2 ^ w) (2 ^ (w - 1))); lia.
Qed.

Lemma byte_to_Z_range b : 0 <= Bytes.byte_to_Z b < 256.
Proof.
  unfold Bytes.byte_to_Z. pose proof (Byte.to_N_bounded b). lia.
Qed.

Lemma byte_to_Z_of_Z z : Bytes.byte_to_Z (Bytes.byte_of_Z z) = z mod 256.
Proof.
  unfold Bytes.byte_to_Z, Bytes.byte_of_Z.
  pose proof (Z.mod_pos_bound z 256 ltac:(lia)) as Hb.
  destruct (Byte.of_N (Z.to_N (z mod 256))) as [b|] eqn:E.
  - apply Byte.to_of_N in E. rewrite E. lia.
  - apply Byte.of_N_None_iff in E. lia.
Qed.

Lemma byte_of_Z_to_Z b : Bytes.byte_of_Z (Bytes.byte_to_Z b) = b.
Proof.
  unfold Bytes.byte_of_Z. rewrite Z.mod_small by apply byte_to_Z_range.
  unfold Bytes.byte_to_Z. rewrite N2Z.id, Byte.of_to_N. reflexivity.
Qed.

Lemma be_decode_snoc l b :
  Bytes.be_decode (l ++ [b]) = Bytes.be_decode l * 256 + Bytes.byte_to_Z b.
Proof. unfold Bytes.be_decode. now rewrite fold_left_app. Qed.

Lemma length_be_encode n z : length (Bytes.be_encode n z) = n.
Proof.
  revert z. induction n as [|n IH]; intros z; simpl; [reflexivity|].
  rewrite length_app, IH. simpl. lia.
Qed.

Lemma be_decode_encode n z :
  Bytes.be_decode (Bytes.be_encode n z) = z mod 2 ^ (8 * Z.of_nat n).
Proof.
  revert z. induction n as [|n IH]; intros z.
  - simpl. now rewrite Z.mod_1_r.
  - cbn [Bytes.be_encode]. rewrite be_decode_snoc, IH, byte_to_Z_of_Z.
    replace (8 * Z.of_nat (S n)) with (8 + 8 * Z.of_nat n) by lia.
    rewrite Z.pow_add_r by lia. change (2 ^ 8) with 256.
    rewrite Z.rem_mul_r by (try apply Z.pow_pos_nonneg; lia). lia.
Qed.

Lemma be_decode_range l : 0 <= Bytes.be_decode l < 2 ^ (8 * Z.of_nat (length l)).
Proof.
  induction l as [|b l IH] using rev_ind.
  - vm_compute. split; [discriminate|reflexivity].
  - rewrite be_decode_snoc, length_app. simpl length.
    replace (8 * Z.of_nat (length l + 1)) with (8 * Z.of_nat (length l) + 8) by lia.
    rewrite Z.pow_add_r by lia. change (2 ^ 8) with 256.
    pose proof (byte_to_Z_range b). nia.
Qed.

Lemma be_encode_decode l :
  Bytes.be_encode (length l) (Bytes.be_decode l) = l.
Proof.
  induction l as [|b l IH] using rev_ind; [reflexivity|].
  rewrite length_app, Nat.add_comm. cbn [length Nat.add Bytes.be_encode].
  rewrite be_decode_snoc. pose proof (byte_to_Z_range b).
  replace ((Bytes.be_decode l * 256 + Bytes.byte_to_Z b) / 256) with (Bytes.be_decode l).
  2:{ apply Z.div_unique with (r := Bytes.byte_to_Z b); lia. }
  rewrite IH. f_equal. f_equal.
  rewrite <- (byte_of_Z_to_Z b) at 2. unfold Bytes.byte_of_Z.
  replace ((Bytes.be_decode l * 256 + Bytes.byte_to_Z b) mod 256)
    with (Bytes.byte_to_Z b mod 256); [reflexivity|].
  rewrite Z.add_comm, Z.mod_add by lia. reflexivity.
Qed.

Lemma be_signed_encode n z :
  (0 < n)%nat -> Int.in_range (8 * Z.of_nat n) z ->
  Bytes.be_signed (Bytes.be_encode n z) = z.
Proof.
  intros Hn Hz. unfold Bytes.be_signed.
  rewrite length_be_encode, be_decode_encode, wrap_mod.
  apply wrap_in_range; [lia|assumption].
Qed.

Lemma be_signed_range l :
  l <> [] -> Int.in_range (8 * Z.of_nat (length l)) (Bytes.be_signed l).
Proof.
  intros Hl. apply wrap_range. destruct l; [congruence|simpl length; lia].
Qed.

Lemma length_string_bytes s : length (Bytes.string_bytes s) = String.length s.
Proof.
  unfold Bytes.string_bytes, list_byte_of_string.
  rewrite length_map. induction s; simpl; congruence.
Qed.

Lemma bytes_string_bytes s : Bytes.bytes_string (Bytes.string_bytes s) = s.
Proof. apply string_of_list_byte_of_string. Qed.

Lemma string_bytes_string l : Bytes.string_bytes (Bytes.bytes_string l) = l.
Proof. apply list_byte_of_string_of_list_byte. Qed.

(* ===================================================================== *)
(** ** The byte buffer: lemmas *)
(* ===================================================================== *)

Lemma bind_unfold {S A B} (m : St S A) (f : A -> St S B) s :
  bind m f s = match m s with Ok (a, s') => f a s' | Err e => Err e end.
Proof. reflexivity. Qed.

Lemma drop_advance (data x post : list byte) p :
  0 <= p -> drop (Z.to_nat p) data = x ++ post ->
  drop (Z.to_nat (p + Z.of_nat (length x))) data = post.
Proof.
  intros Hp Hd.
  replace (Z.to_nat (p + Z.of_nat (length x))) with (Z.to_nat p + length x)%nat by lia.
  rewrite <- drop_drop, Hd. apply drop_app_length.
Qed.

(** A raw read inside the bytes the region holds at the cursor. *)
Lemma get_at data k p x post :
  0 <= p -> drop (Z.to_nat p) data = x ++ post ->
  get (Z.of_nat (length x)) (buffer_at data k p)
  = if p + Z.of_nat (length x) <=? k
    then Ok (x, buffer_at data k (p + Z.of_nat (length x)))
    else Err Overrun.
Proof.
  intros Hp Hd. unfold get, buffer_at, bytes_at. cbn [m_limit m_position m_offset m_buffer].
  destruct (Z.ltb_spec (Z.of_nat (length x)) 0); [lia|].
  destruct (Z.ltb_spec (k - p) (Z.of_nat (length x)));
    destruct (Z.leb_spec (p + Z.of_nat (length x)) k); try lia; cbn [orb]; [reflexivity|].
  rewrite Z.add_0_l, Hd, Nat2Z.id, take_app_length, Z.eqb_refl.
  reflexivity.
Qed.

Lemma getInt_at (n : nat) (reader : M Z) data k p z post :
  reader = bind (get (Z.of_nat n)) (fun bs => ret (Bytes.be_signed bs)) ->
  (0 < n)%nat -> Int.in_range (8 * Z.of_nat n) z ->
  0 <= p -> drop (Z.to_nat p) data = Bytes.be_encode n z ++ post ->
  reader (buffer_at data k p)
  = if p + Z.of_nat n <=? k then Ok (z, buffer_at data k (p + Z.of_nat n)) else Err Overrun.
Proof.
  intros -> Hn Hz Hp Hd. rewrite bind_unfold.
  rewrite <- (length_be_encode n z) at 1. rewrite (get_at _ _ _ _ _ Hp Hd).
  rewrite length_be_encode.
  destruct (p + Z.of_nat n <=? k); [|reflexivity].
  unfold ret. now rewrite be_signed_encode.
Qed.

Lemma getInt8_at data k p z post :
  Int.in_range 8 z -> 0 <= p -> drop (Z.to_nat p) data = Bytes.be_encode 1 z ++ post ->
  getInt8 (buffer_at data k p)
  = if p + 1 <=? k then Ok (z, buffer_at data k (p + 1)) else Err Overrun.
Proof. intros. apply (getInt_at 1) with (post := post); [reflexivity | lia | assumption..]. Qed.

Lemma getInt16_at data k p z post :
  Int.in_range 16 z -> 0 <= p -> drop (Z.to_nat p) data = Bytes.be_encode 2 z ++ post ->
  getInt16 (buffer_at data k p)
  = if p + 2 <=? k then Ok (z, buffer_at data k (p + 2)) else Err Overrun.
Proof. intros. apply (getInt_at 2) with (post := post); [reflexivity | lia | assumption..]. Qed.

Lemma getInt32_at data k p z post :
  Int.in_range 32 z -> 0 <= p -> drop (Z.to_nat p) data = Bytes.be_encode 4 z ++ post ->
  getInt32 (buffer_at data k p)
  = if p + 4 <=? k then Ok (z, buffer_at data k (p + 4)) else Err Overrun.
Proof. intros. apply (getInt_at 4) with (post := post); [reflexivity | lia | assumption..]. Qed.

Lemma getInt64_at data k p z post :
  Int.in_range 64 z -> 0 <= p -> drop (Z.to_nat p) data = Bytes.be_encode 8 z ++ post ->
  getInt64 (buffer_at data k p)
  = if p + 8 <=? k then Ok (z, buffer_at data k (p + 8)) else Err Overrun.
Proof. intros. apply (getInt_at 8) with (post := post); [reflexivity | lia | assumption..]. Qed.

Lemma length_in_range32 (n : nat) :
  Z.of_nat n <= Int.INT32_MAX -> Int.in_range 32 (Z.of_nat n).
Proof. unfold Int.in_range, Int.INT32_MAX. change (2 ^ (32 - 1)) with 2147483648. lia. Qed.

Lemma length_encode_string s :
  Z.of_nat (length (Wire.encode_string s))
  = 4 + match s with Some str => Z.of_nat (String.length str) | None => 0 end.
Proof.
  destruct s as [str|]; unfold Wire.encode_string.
  - rewrite length_app, length_be_encode, length_string_bytes. lia.
  - rewrite length_be_encode. lia.
Qed.

(** Reading a string the peer encoded, null or not. *)
Lemma getString_at data k p s post w :
  Wire.string_fits s -> 0 <= p ->
  drop (Z.to_nat p) data = Wire.encode_string s ++ post ->
  getString w (buffer_at data k p)
  = if p + Z.of_nat (length (Wire.encode_string s)) <=? k
    then Ok ((default EmptyString s, w || Wire.is_null s),
             buffer_at data k (p + Z.of_nat (length (Wire.encode_string s))))
    else Err Overrun.
Proof.
  intros Hfit Hp Hd. rewrite length_encode_string. unfold getString. rewrite bind_unfold.
  destruct s as [str|]; cbn [Wire.encode_string Wire.string_fits Wire.is_null default] in *.
  - rewrite <- app_assoc in Hd.
    rewrite (getInt32_at _ _ _ _ _ (length_in_range32 _ Hfit) Hp Hd).
    pose proof (drop_advance _ _ _ _ Hp Hd) as Hd'. rewrite length_be_encode in Hd'.
    change (Z.of_nat 4) with 4 in Hd'.
    destruct (Z.leb_spec (p + 4) k) as [H4|H4].
    + destruct (Z.eqb_spec (Z.of_nat (String.length str)) (-1)); [lia|].
      rewrite bind_unfold. rewrite <- length_string_bytes.
      rewrite (get_at data k (p + 4) _ _ ltac:(lia) Hd').
      replace (p + 4 + Z.of_nat (length (Bytes.string_bytes str)))
        with (p + (4 + Z.of_nat (length (Bytes.string_bytes str)))) by lia.
      destruct (p + (4 + Z.of_nat (length (Bytes.string_bytes str))) <=? k); [|reflexivity].
      unfold ret. rewrite bytes_string_bytes, orb_false_r. reflexivity.
    + destruct (Z.leb_spec (p + (4 + Z.of_nat (String.length str))) k); [lia|reflexivity].
  - rewrite (getInt32_at _ _ _ (-1) _ ltac:(unfold Int.in_range; simpl; lia) Hp Hd).
    rewrite Z.add_0_r. change (Z.of_nat 4) with 4.
    destruct (p + 4 <=? k); [|reflexivity].
    cbn. now rewrite orb_true_r.
Qed.

Lemma land_pow2 a n :
  0 <= n -> Z.land a (2 ^ n) = if Z.testbit a n then 2 ^ n else 0.
Proof.
  intros Hn. apply Z.bits_inj'. intros m Hm.
  rewrite Z.land_spec, Z.pow2_bits_eqb by lia.
  destruct (Z.eqb_spec n m) as [->|Hne].
  - destruct (Z.testbit a m); cbn [andb].
    + rewrite Z.pow2_bits_eqb, Z.eqb_refl by lia. reflexivity.
    + now rewrite Z.bits_0.
  - rewrite andb_false_r. destruct (Z.testbit a n).
    + rewrite Z.pow2_bits_eqb by lia. symmetry. now apply Z.eqb_neq.
    + now rewrite Z.bits_0.
Qed.

(** The C++ test [(presentFields & (1 << n)) != 0] reads bit [n]. *)
Lemma present_bit a n :
  0 <= n -> negb (Z.land a (Z.shiftl 1 n) =? 0) = Z.testbit a n.
Proof.
  intros Hn. rewrite Z.shiftl_1_l, land_pow2 by lia.
  assert (0 < 2 ^ n) by (apply Z.pow_pos_nonneg; lia).
  destruct (Z.testbit a n); [|reflexivity].
  destruct (Z.eqb_spec (2 ^ n) 0); [lia|reflexivity].
Qed.

Lemma wrap32_small z : 0 <= z <= Int.INT32_MAX -> Int.wrap 32 z = z.
Proof.
  intros Hz. apply wrap_in_range; [lia|]. unfold Int.in_range, Int.INT32_MAX in *.
  change (2 ^ (32 - 1)) with 2147483648. lia.
Qed.

Lemma wrap32_high z : Int.INT32_MAX < z < 2 ^ 32 -> Int.wrap 32 z < 0.
Proof.
  unfold Int.wrap, Int.INT32_MAX. intros Hz.
  rewrite Z.mod_small by lia. change (2 ^ (32 - 1)) with 2147483648.
  destruct (Z.ltb_spec z 2147483648); lia.
Qed.

Lemma length_encode_block t :
  Z.of_nat (length (Wire.encode_block t)) = 4 + Z.of_nat (length t).
Proof. unfold Wire.encode_block. rewrite length_app, length_be_encode. lia. Qed.

(** One turn of the table loop on a table the peer encoded. *)
Lemma read_table_at data k p t post ii res :
  k <= Int.INT32_MAX -> 0 <= p -> Z.of_nat (length t) <= Int.INT32_MAX ->
  drop (Z.to_nat p) data = Wire.encode_block t ++ post ->
  read_table k ii res (buffer_at data k p)
  = if p + 4 <=? k then
      if 4 <=? Z.of_nat (length t) then
        if p + 4 + Z.of_nat (length t) <=? k then
          Ok (<[ii := mkTable (mkBuffer data (p + 4) 0 (Z.of_nat (length t)) (Z.of_nat (length t)))]> res,
              buffer_at data k (p + 4 + Z.of_nat (length t)))
        else Err IndexOutOfBounds
      else Err AssertionFailure
    else Err Overrun.
Proof.
  intros Hk Hp Ht Hd. unfold read_table, Wire.encode_block in *.
  rewrite <- app_assoc in Hd. rewrite bind_unfold.
  rewrite (getInt32_at _ _ _ _ _ (length_in_range32 _ Ht) Hp Hd).
  destruct (Z.leb_spec (p + 4) k) as [H4|H4]; [|reflexivity].
  rewrite bind_unfold. unfold assert.
  destruct (Z.leb_spec 4 (Z.of_nat (length t))) as [Hl|Hl]; [|reflexivity].
  unfold ret at 1. cbv beta iota. rewrite bind_unfold. unfold position at 1.
  cbv beta iota. cbn [buffer_at m_position].
  rewrite bind_unfold. unfold set_limit at 1, Int.int32_add.
  cbn [buffer_at m_capacity m_limit].
  destruct (Z.leb_spec (p + 4 + Z.of_nat (length t)) k) as [Hs|Hs].
  - rewrite wrap32_small by lia.
    destruct (Z.ltb_spec (p + 4 + Z.of_nat (length t)) 0); [lia|].
    destruct (Z.ltb_spec k (p + 4 + Z.of_nat (length t))); [lia|].
    cbn [orb]. cbv beta iota. rewrite bind_unfold. unfold slice, with_limit, with_position.
    cbn [m_limit m_position m_buffer m_offset m_capacity]. cbv beta iota.
    rewrite bind_unfold. unfold set_limit, with_limit.
    cbn [m_limit m_position m_buffer m_offset m_capacity].
    destruct (Z.ltb_spec k 0); [lia|]. rewrite Z.ltb_irrefl. cbn [orb].
    unfold ret, buffer_at. cbn [m_limit m_position m_buffer m_offset m_capacity].
    repeat f_equal; lia.
  - destruct (Z_le_gt_dec (p + 4 + Z.of_nat (length t)) Int.INT32_MAX).
    + rewrite wrap32_small by lia.
      destruct (Z.ltb_spec k (p + 4 + Z.of_nat (length t))); [|lia].
      now rewrite orb_true_r.
    + pose proof (wrap32_high (p + 4 + Z.of_nat (length t))
                    ltac:(unfold Int.INT32_MAX in *; lia)) as Hw.
      destruct (Z.ltb_spec (Int.wrap 32 (p + 4 + Z.of_nat (length t))) 0); [|lia].
      reflexivity.
Qed.

Lemma encode_tables_cons t ts :
  Wire.encode_tables (t :: ts) = Wire.encode_block t ++ Wire.encode_tables ts.
Proof. reflexivity. Qed.

Lemma length_encode_tables_cons t ts :
  Z.of_nat (length (Wire.encode_tables (t :: ts)))
  = 4 + Z.of_nat (length t) + Z.of_nat (length (Wire.encode_tables ts)).
Proof. rewrite encode_tables_cons, length_app, Nat2Z.inj_add, length_encode_block. lia. Qed.

(** The table loop on the tables the peer encoded: it returns exactly
    when every table has its four bytes and the limit covers them all,
    and then slot [length done + i] holds the view of table [i]. *)
Lemma read_tables_at data k :
  k <= Int.INT32_MAX ->
  forall ts p post done rest,
    0 <= p <= k ->
    Forall (fun t => Z.of_nat (length t) <= Int.INT32_MAX) ts ->
    drop (Z.to_nat p) data = Wire.encode_tables ts ++ post ->
    (length ts <= length rest)%nat ->
    forall v b',
      read_tables (length ts) k (length done) (done ++ rest) (buffer_at data k p) = Ok (v, b')
      <-> Forall (fun t => 4 <= Z.of_nat (length t)) ts
          /\ p + Z.of_nat (length (Wire.encode_tables ts)) <= k
          /\ v = done ++ Wire.table_views data p ts ++ drop (length ts) rest
          /\ b' = buffer_at data k (p + Z.of_nat (length (Wire.encode_tables ts))).
Proof.
  intros Hk ts. induction ts as [|t ts IH]; intros p post done rest [Hp Hpk] Hfit Hd Hlen v b'.
  - cbn [length read_tables Wire.encode_tables map concat Wire.table_views drop app].
    rewrite Z.add_0_r. unfold ret. split.
    + intros [= <- <-]. split; [constructor|]. split; [lia|]. split; reflexivity.
    + intros (_ & _ & -> & ->). reflexivity.
  - apply Forall_cons_1 in Hfit as [Hft Hfit].
    rewrite encode_tables_cons, <- app_assoc in Hd.
    rewrite length_encode_tables_cons.
    destruct rest as [|r0 rest]; [cbn in Hlen; lia|].
    cbn [length read_tables]. rewrite bind_unfold, (read_table_at _ _ _ _ _ _ _ Hk Hp Hft Hd).
    pose proof (drop_advance _ _ _ _ Hp Hd) as Hd'. rewrite length_encode_block in Hd'.
    destruct (Z.leb_spec (p + 4) k) as [H4|H4].
    2:{ split; [discriminate|]. intros (_ & Hle & _). lia. }
    destruct (Z.leb_spec 4 (Z.of_nat (length t))) as [Hl|Hl].
    2:{ split; [discriminate|]. intros (Hall & _). apply Forall_cons_1 in Hall as [? _]. lia. }
    destruct (Z.leb_spec (p + 4 + Z.of_nat (length t)) k) as [Hs|Hs].
    2:{ split; [discriminate|]. intros (_ & Hle & _). lia. }
    rewrite insert_app_r_alt by lia. rewrite Nat.sub_diag. cbn [insert list_insert].
    change (done ++ ?x :: rest) with (done ++ [x] ++ rest).
    rewrite app_assoc.
    replace (S (length done)) with (length (done ++ [mkTable (mkBuffer data (p + 4) 0 (Z.of_nat (length t)) (Z.of_nat (length t)))])) by (rewrite length_app; simpl; lia).
    replace (p + (4 + Z.of_nat (length t))) with (p + 4 + Z.of_nat (length t)) in Hd' by lia.
    rewrite (IH (p + 4 + Z.of_nat (length t)) post _ rest ltac:(lia) Hfit Hd' ltac:(cbn in Hlen; lia)).
    cbn [Wire.table_views drop length]. rewrite <- !app_assoc. cbn [app].
    replace (p + (4 + Z.of_nat (length t) + Z.of_nat (length (Wire.encode_tables ts))))
      with (p + 4 + Z.of_nat (length t) + Z.of_nat (length (Wire.encode_tables ts))) by lia.
    rewrite Forall_cons. intuition lia.
Qed.

Lemma advance_int n (data post : list byte) p z :
  0 <= p -> drop (Z.to_nat p) data = Bytes.be_encode n z ++ post ->
  drop (Z.to_nat (p + Z.of_nat n)) data = post.
Proof.
  intros Hp Hd. rewrite <- (length_be_encode n z). now apply drop_advance.
Qed.

(** A string that is on the wire only when [c] is set. *)
Lemma optional_string_at {B} (F : string * bool -> M B) data k p c s post w :
  Wire.string_fits s -> 0 <= p <= k ->
  drop (Z.to_nat p) data = Wire.encode_optional c (Wire.encode_string s) ++ post ->
  bind (if c then getString w else ret (EmptyString, w)) F (buffer_at data k p)
  = if p + Z.of_nat (length (Wire.encode_optional c (Wire.encode_string s))) <=? k
    then F (Wire.string_value c s, w || (c && Wire.is_null s))
           (buffer_at data k
              (p + Z.of_nat (length (Wire.encode_optional c (Wire.encode_string s)))))
    else Err Overrun.
Proof.
  intros Hfit Hp Hd. rewrite bind_unfold.
  destruct c; cbn [Wire.encode_optional Wire.string_value andb] in *.
  - rewrite (getString_at _ _ _ _ _ _ Hfit (proj1 Hp) Hd).
    now destruct (_ <=? _).
  - cbn [length]. rewrite Z.add_0_r, orb_false_r.
    destruct (Z.leb_spec p k); [reflexivity|lia].
Qed.

(** The exception block, skipped when [c] is set. *)
Lemma skip_exception_at {B} (F : unit -> M B) data k p c exc post :
  k <= Int.INT32_MAX -> 0 <= p <= k -> Z.of_nat (length exc) <= Int.INT32_MAX ->
  drop (Z.to_nat p) data = Wire.encode_optional c (Wire.encode_block exc) ++ post ->
  bind (if c
        then (pos <- position ;;
              len <- getInt32 ;;
              set_position (Int.int32_add (Int.int32_add pos 4) len))%st
        else ret tt) F (buffer_at data k p)
  = if p + Z.of_nat (length (Wire.encode_optional c (Wire.encode_block exc))) <=? k
    then F tt (buffer_at data k
                 (p + Z.of_nat (length (Wire.encode_optional c (Wire.encode_block exc)))))
    else Err (if p + 4 <=? k then IndexOutOfBounds else Overrun).
Proof.
  intros Hk Hp Hexc Hd. rewrite bind_unfold.
  destruct c; cbn [Wire.encode_optional] in *.
  - rewrite length_encode_block. unfold Wire.encode_block in Hd.
    rewrite <- app_assoc in Hd.
    rewrite bind_unfold. unfold position at 1. cbv beta iota zeta.
    cbn [buffer_at m_position]. rewrite bind_unfold.
    rewrite (getInt32_at _ _ _ _ _ (length_in_range32 _ Hexc) (proj1 Hp) Hd).
    destruct (Z.leb_spec (p + 4) k) as [H4|H4].
    2:{ destruct (Z.leb_spec (p + (4 + Z.of_nat (length exc))) k); [lia|reflexivity]. }
    unfold set_position, Int.int32_add. cbn [buffer_at m_limit].
    rewrite (wrap32_small (p + 4)) by lia.
    destruct (Z.leb_spec (p + (4 + Z.of_nat (length exc))) k) as [Hs|Hs].
    + rewrite wrap32_small by lia.
      destruct (Z.ltb_spec (p + 4 + Z.of_nat (length exc)) 0); [lia|].
      destruct (Z.ltb_spec k (p + 4 + Z.of_nat (length exc))); [lia|].
      cbn [orb]. unfold with_position, buffer_at.
      cbn [m_buffer m_offset m_capacity m_limit].
      replace (p + (4 + Z.of_nat (length exc))) with (p + 4 + Z.of_nat (length exc)) by lia.
      reflexivity.
    + destruct (Z_le_gt_dec (p + 4 + Z.of_nat (length exc)) Int.INT32_MAX).
      * rewrite wrap32_small by lia.
        destruct (Z.ltb_spec k (p + 4 + Z.of_nat (length exc))); [|lia].
        now rewrite orb_true_r.
      * pose proof (wrap32_high (p + 4 + Z.of_nat (length exc))
                      ltac:(unfold Int.INT32_MAX in *; lia)) as Hw.
        destruct (Z.ltb_spec (Int.wrap 32 (p + 4 + Z.of_nat (length exc))) 0); [|lia].
        reflexivity.
  - cbn [length]. rewrite Z.add_0_r.
    destruct (Z.leb_spec p k); [reflexivity|lia].
Qed.

Lemma length_encode_head f :
  Z.of_nat (length (Wire.encode_head f))
  = 0 + 1 + 8 + 1 + 1
    + Z.of_nat (length (Wire.encode_optional (Wire.has_statusString f)
                          (Wire.encode_string (Wire.statusString f))))
    + 1
    + Z.of_nat (length (Wire.encode_optional (Wire.has_appStatusString f)
                          (Wire.encode_string (Wire.appStatusString f))))
    + 4
    + Z.of_nat (length (Wire.encode_optional (Wire.has_exception f)
                          (Wire.encode_block (Wire.exception f))))
    + 2.
Proof.
  unfold Wire.encode_head. rewrite !length_app, !length_be_encode. lia.
Qed.

Lemma length_encode f :
  Z.of_nat (length (Wire.encode f))
  = Z.of_nat (length (Wire.encode_head f))
    + Z.of_nat (length (Wire.encode_tables (Wire.tables f))).
Proof. unfold Wire.encode. rewrite length_app. lia. Qed.

Lemma null_flag_clear f :
  Wire.string_present (Wire.has_statusString f) (Wire.statusString f) ->
  Wire.string_present (Wire.has_appStatusString f) (Wire.appStatusString f) ->
  false || Wire.has_statusString f && Wire.is_null (Wire.statusString f)
  || Wire.has_appStatusString f && Wire.is_null (Wire.appStatusString f) = false.
Proof.
  unfold Wire.string_present. intros H1 H2.
  destruct (Wire.has_statusString f), (Wire.statusString f),
    (Wire.has_appStatusString f), (Wire.appStatusString f); cbn; try reflexivity;
    exfalso; (now apply H1) || (now apply H2).
Qed.

Lemma null_flag_set f :
  false || Wire.has_statusString f && Wire.is_null (Wire.statusString f)
  || Wire.has_appStatusString f && Wire.is_null (Wire.appStatusString f) = true ->
  ~ (Wire.string_present (Wire.has_statusString f) (Wire.statusString f)
     /\ Wire.string_present (Wire.has_appStatusString f) (Wire.appStatusString f)).
Proof.
  intros Hset [H1 H2]. rewrite null_flag_clear in Hset by assumption. discriminate.
Qed.

Lemma null_flag_clear_inv f :
  false || Wire.has_statusString f && Wire.is_null (Wire.statusString f)
  || Wire.has_appStatusString f && Wire.is_null (Wire.appStatusString f) = false ->
  Wire.string_present (Wire.has_statusString f) (Wire.statusString f)
  /\ Wire.string_present (Wire.has_appStatusString f) (Wire.appStatusString f).
Proof.
  unfold Wire.string_present.
  destruct (Wire.has_statusString f), (Wire.statusString f),
    (Wire.has_appStatusString f), (Wire.appStatusString f); cbn;
    intros Hflag; split; intros Hc; congruence.
Qed.

Lemma to_size_t_negative z :
  Int.in_range 16 z -> z < 0 -> (Int.vector_max_size <? Int.to_size_t z) = true.
Proof.
  unfold Int.in_range, Int.to_size_t, Int.vector_max_size, Int.size_t_bits.
  change (2 ^ (16 - 1)) with 32768. change (2 ^ (64 - 1)) with 9223372036854775808.
  change (2 ^ 64) with 18446744073709551616.
  intros Hz Hneg. apply Z.ltb_lt.
  replace (z mod 18446744073709551616) with (z + 18446744073709551616); [lia|].
  apply Z.mod_unique with (q := -1); lia.
Qed.

Lemma to_size_t_small z :
  Int.in_range 16 z -> 0 <= z -> Int.to_size_t z = z.
Proof.
  unfold Int.in_range, Int.to_size_t, Int.size_t_bits.
  change (2 ^ (16 - 1)) with 32768. change (2 ^ 64) with 18446744073709551616.
  intros Hz Hpos. apply Z.mod_small. lia.
Qed.

(** A branch in which the constructor has thrown: the frame is then not a
    well-formed one the limit covers. *)
Ltac thrown :=
  split;
  [ discriminate
  | let Hwf := fresh "Hwf" in
    let Hle := fresh "Hle" in
    intros (Hwf & Hle & _); exfalso;
    try (destruct Hwf; lia) ].

(** The parsing constructor on the payload a peer encoded, followed or
    not by other bytes: it returns exactly on a well-formed frame that
    the given length covers, with the response the frame stands for, the
    cursor behind the last table. *)
Lemma parse_response_encode f post k :
  Wire.shaped f -> k <= Int.INT32_MAX ->
  forall r b',
    parse_response (SharedByteBuffer_new (Wire.encode f ++ post) k) = Ok (r, b')
    <-> Wire.well_formed f
        /\ Z.of_nat (length (Wire.encode f)) <= k
        /\ r = Wire.response_of (Wire.encode f ++ post) f
        /\ b' = buffer_at (Wire.encode f ++ post) k (Z.of_nat (length (Wire.encode f))).
Proof.
  intros Hsh Hk r b'.
  assert (Hd0 : drop (Z.to_nat 0) (Wire.encode f ++ post)
                = Bytes.be_encode 1 (Wire.version f)
                  ++ Bytes.be_encode 8 (Wire.clientData f)
                  ++ Bytes.be_encode 1 (Wire.presentFields f)
                  ++ Bytes.be_encode 1 (Wire.statusCode f)
                  ++ Wire.encode_optional (Wire.has_statusString f)
                       (Wire.encode_string (Wire.statusString f))
                  ++ Bytes.be_encode 1 (Wire.appStatusCode f)
                  ++ Wire.encode_optional (Wire.has_appStatusString f)
                       (Wire.encode_string (Wire.appStatusString f))
                  ++ Bytes.be_encode 4 (Wire.clusterRoundTripTime f)
                  ++ Wire.encode_optional (Wire.has_exception f)
                       (Wire.encode_block (Wire.exception f))
                  ++ Bytes.be_encode 2 (Wire.resultCount f)
                  ++ Wire.encode_tables (Wire.tables f) ++ post).
  { unfold Wire.encode, Wire.encode_head. cbn [Z.to_nat drop].
    rewrite <- !app_assoc. reflexivity. }
  unfold Wire.response_of.
  rewrite length_encode, length_encode_head.
  remember (Wire.encode f ++ post) as data eqn:Hdata. clear Hdata.
  set (L1 := Z.of_nat (length (Wire.encode_optional (Wire.has_statusString f)
                                 (Wire.encode_string (Wire.statusString f))))) in *.
  set (L2 := Z.of_nat (length (Wire.encode_optional (Wire.has_appStatusString f)
                                 (Wire.encode_string (Wire.appStatusString f))))) in *.
  set (L3 := Z.of_nat (length (Wire.encode_optional (Wire.has_exception f)
                                 (Wire.encode_block (Wire.exception f))))) in *.
  set (LT := Z.of_nat (length (Wire.encode_tables (Wire.tables f)))) in *.
  assert (0 <= L1 /\ 0 <= L2 /\ 0 <= L3 /\ 0 <= LT) as (HL1 & HL2 & HL3 & HLT)
    by (subst L1 L2 L3 LT; lia).
  destruct Hsh as [Sv Scd Spf Ssc Sss Sasc Sass Scrt Sexc Src Stl Sts].
  change (SharedByteBuffer_new data k) with (buffer_at data k 0).
  unfold parse_response.
  (* version *)
  rewrite bind_unfold, (getInt8_at _ _ _ _ _ Sv (Z.le_refl 0) Hd0).
  pose proof (advance_int 1 _ _ _ _ (Z.le_refl 0) Hd0) as Hd1.
  change (Z.of_nat 1) with 1 in Hd1.
  destruct (Z.leb_spec (0 + 1) k) as [Hb1|Hb1]; [|thrown].
  rewrite bind_unfold. unfold assert.
  destruct (Z.eqb_spec (Wire.version f) 0) as [Hv0|Hv0]; [|thrown].
  unfold ret at 1. cbv beta iota.
  (* clientData *)
  rewrite bind_unfold, (getInt64_at _ _ (0 + 1) _ _ Scd ltac:(lia) Hd1).
  pose proof (advance_int 8 _ _ (0 + 1) _ ltac:(lia) Hd1) as Hd2.
  change (Z.of_nat 8) with 8 in Hd2.
  destruct (Z.leb_spec (0 + 1 + 8) k) as [Hb2|Hb2]; [|thrown].
  (* presentFields, statusCode *)
  rewrite bind_unfold, (getInt8_at _ _ (0 + 1 + 8) _ _ Spf ltac:(lia) Hd2).
  pose proof (advance_int 1 _ _ (0 + 1 + 8) _ ltac:(lia) Hd2) as Hd3.
  change (Z.of_nat 1) with 1 in Hd3.
  destruct (Z.leb_spec (0 + 1 + 8 + 1) k) as [Hb3|Hb3]; [|thrown].
  rewrite bind_unfold, (getInt8_at _ _ (0 + 1 + 8 + 1) _ _ Ssc ltac:(lia) Hd3).
  pose proof (advance_int 1 _ _ (0 + 1 + 8 + 1) _ ltac:(lia) Hd3) as Hd4.
  change (Z.of_nat 1) with 1 in Hd4.
  destruct (Z.leb_spec (0 + 1 + 8 + 1 + 1) k) as [Hb4|Hb4]; [|thrown].
  cbv zeta.
  rewrite !present_bit by lia.
  fold (Wire.has_statusString f) (Wire.has_appStatusString f) (Wire.has_exception f).
  (* statusString *)
  rewrite (optional_string_at _ data k (0 + 1 + 8 + 1 + 1) _ _ _ false Sss ltac:(lia) Hd4).
  pose proof (drop_advance _ _ _ (0 + 1 + 8 + 1 + 1) ltac:(lia) Hd4) as Hd5. fold L1 in Hd5 |- *.
  destruct (Z.leb_spec (0 + 1 + 8 + 1 + 1 + L1) k) as [Hb5|Hb5]; [|thrown].
  cbn [fst snd].
  (* appStatusCode, appStatusString *)
  rewrite bind_unfold,
    (getInt8_at _ _ (0 + 1 + 8 + 1 + 1 + L1) _ _ Sasc ltac:(lia) Hd5).
  pose proof (advance_int 1 _ _ (0 + 1 + 8 + 1 + 1 + L1) _ ltac:(lia) Hd5) as Hd6.
  change (Z.of_nat 1) with 1 in Hd6.
  destruct (Z.leb_spec (0 + 1 + 8 + 1 + 1 + L1 + 1) k) as [Hb6|Hb6]; [|thrown].
  rewrite (optional_string_at _ data k (0 + 1 + 8 + 1 + 1 + L1 + 1) _ _ _ _
             Sass ltac:(lia) Hd6).
  pose proof (drop_advance _ _ _ (0 + 1 + 8 + 1 + 1 + L1 + 1) ltac:(lia) Hd6) as Hd7.
  fold L2 in Hd7 |- *.
  destruct (Z.leb_spec (0 + 1 + 8 + 1 + 1 + L1 + 1 + L2) k) as [Hb7|Hb7]; [|thrown].
  cbn [fst snd].
  rewrite bind_unfold. unfold assert.
  destruct (false || Wire.has_statusString f && Wire.is_null (Wire.statusString f)
            || Wire.has_appStatusString f && Wire.is_null (Wire.appStatusString f))
    eqn:Hnull; cbn [negb].
  { thrown. apply (null_flag_set f Hnull). now destruct Hwf. }
  unfold ret at 1. cbv beta iota.
  (* clusterRoundTripTime, the exception block *)
  rewrite bind_unfold,
    (getInt32_at _ _ (0 + 1 + 8 + 1 + 1 + L1 + 1 + L2) _ _ Scrt ltac:(lia) Hd7).
  pose proof (advance_int 4 _ _ (0 + 1 + 8 + 1 + 1 + L1 + 1 + L2) _ ltac:(lia) Hd7) as Hd8.
  change (Z.of_nat 4) with 4 in Hd8.
  destruct (Z.leb_spec (0 + 1 + 8 + 1 + 1 + L1 + 1 + L2 + 4) k) as [Hb8|Hb8]; [|thrown].
  rewrite (skip_exception_at _ data k (0 + 1 + 8 + 1 + 1 + L1 + 1 + L2 + 4) _ _ _
             Hk ltac:(lia) Sexc Hd8).
  pose proof (drop_advance _ _ _ (0 + 1 + 8 + 1 + 1 + L1 + 1 + L2 + 4) ltac:(lia) Hd8) as Hd9.
  fold L3 in Hd9 |- *.
  destruct (Z.leb_spec (0 + 1 + 8 + 1 + 1 + L1 + 1 + L2 + 4 + L3) k) as [Hb9|Hb9]; [|thrown].
  (* resultCount *)
  rewrite bind_unfold,
    (getInt16_at _ _ (0 + 1 + 8 + 1 + 1 + L1 + 1 + L2 + 4 + L3) _ _ Src ltac:(lia) Hd9).
  pose proof (advance_int 2 _ _ (0 + 1 + 8 + 1 + 1 + L1 + 1 + L2 + 4 + L3) _
                ltac:(lia) Hd9) as Hd10.
  change (Z.of_nat 2) with 2 in Hd10.
  destruct (Z.leb_spec (0 + 1 + 8 + 1 + 1 + L1 + 1 + L2 + 4 + L3 + 2) k) as [Hb10|Hb10];
    [|thrown].
  rewrite bind_unfold. unfold vector_resize.
  destruct (Z_lt_dec (Wire.resultCount f) 0) as [Hneg|Hpos].
  { rewrite (to_size_t_negative _ Src Hneg). unfold throw. thrown. }
  rewrite (to_size_t_small _ Src) by lia.
  destruct (Z.ltb_spec Int.vector_max_size (Wire.resultCount f)) as [Hbig|_].
  { unfold Int.in_range, Int.vector_max_size, Int.size_t_bits in *.
    change (2 ^ (16 - 1)) with 32768 in Src.
    change (2 ^ (64 - 1)) with 9223372036854775808 in Hbig. lia. }
  unfold ret at 1. cbv beta iota.
  rewrite bind_unfold. unfold limit at 1. cbv beta iota. cbn [buffer_at m_limit].
  rewrite bind_unfold.
  specialize (Sts ltac:(lia)). rewrite Sts, Nat2Z.id.
  pose proof (read_tables_at data k Hk (Wire.tables f)
                (0 + 1 + 8 + 1 + 1 + L1 + 1 + L2 + 4 + L3 + 2) post []
                (replicate (length (Wire.tables f)) Table_default)
                ltac:(lia) Stl Hd10 ltac:(rewrite length_replicate; lia)) as Hloop.
  cbn [length app] in Hloop. fold LT in Hloop.
  rewrite drop_ge in Hloop by (rewrite length_replicate; lia).
  rewrite app_nil_r in Hloop.
  destruct (read_tables _ _ _ _ _) as [[v b1]|e].
  - destruct (proj1 (Hloop v b1) eq_refl) as (Hall & Hle & -> & ->). unfold ret. split.
    + intros [= <- <-].
      destruct (null_flag_clear_inv f Hnull) as [Hs1 Hs2].
      split; [constructor; (assumption || lia)|].
      split; [lia|]. split; reflexivity.
    + intros (_ & _ & -> & ->). reflexivity.
  - split; [discriminate|]. intros (Hwf & Hle & _). exfalso.
    enough (Err e = Ok (Wire.table_views data
                          (0 + 1 + 8 + 1 + 1 + L1 + 1 + L2 + 4 + L3 + 2) (Wire.tables f),
                        buffer_at data k
                          (0 + 1 + 8 + 1 + 1 + L1 + 1 + L2 + 4 + L3 + 2 + LT)))
      by discriminate.
    apply Hloop. destruct Hwf. repeat split; try assumption; lia.
Qed.

(** The parsing constructor on a well-formed frame the length covers. *)
Lemma parse_well_formed f post k :
  Wire.shaped f -> Wire.well_formed f ->
  Z.of_nat (length (Wire.encode f)) <= k <= Int.INT32_MAX ->
  parse_response (SharedByteBuffer_new (Wire.encode f ++ post) k)
  = Ok (Wire.response_of (Wire.encode f ++ post) f,
        buffer_at (Wire.encode f ++ post) k (Z.of_nat (length (Wire.encode f)))).
Proof.
  intros Hsh Hwf [Hlen Hk]. apply parse_response_encode; auto.
Qed.

Lemma InvocationResponse_parse_well_formed f post k :
  Wire.shaped f -> Wire.well_formed f ->
  Z.of_nat (length (Wire.encode f)) <= k <= Int.INT32_MAX ->
  InvocationResponse_parse (Wire.encode f ++ post) k
  = Ok (Wire.response_of (Wire.encode f ++ post) f).
Proof.
  intros Hsh Hwf Hk. unfold InvocationResponse_parse.
  now rewrite parse_well_formed.
Qed.

Lemma length_table_views data start ts :
  length (Wire.table_views data start ts) = length ts.
Proof.
  revert start. induction ts as [|t ts IH]; intros start; cbn; [reflexivity|].
  now rewrite IH.
Qed.

Lemma encode_tables_app ts1 ts2 :
  Wire.encode_tables (ts1 ++ ts2) = Wire.encode_tables ts1 ++ Wire.encode_tables ts2.
Proof. unfold Wire.encode_tables. now rewrite map_app, concat_app. Qed.

(** Slot [ii] of the views is the view of table [ii]: it starts four bytes
    behind the end of the tables before it and spans the table's length. *)
Lemma table_views_lookup data start ts ii t :
  ts !! ii = Some t ->
  Wire.table_views data start ts !! ii
  = Some (mkTable (mkBuffer data
                     (start + Z.of_nat (length (Wire.encode_tables (take ii ts))) + 4)
                     0 (Z.of_nat (length t)) (Z.of_nat (length t)))).
Proof.
  revert start ii. induction ts as [|t0 ts IH]; intros start ii Hl; [discriminate|].
  destruct ii as [|ii]; cbn in Hl.
  - injection Hl as ->. cbn. now rewrite Z.add_0_r.
  - cbn [Wire.table_views lookup list_lookup take]. rewrite (IH _ _ Hl).
    rewrite length_encode_tables_cons. do 3 f_equal. lia.
Qed.

(* ===================================================================== *)
(** ** The constructor on any buffer: what a successful run tells *)
(* ===================================================================== *)

Lemma bind_inv {S A B} (m : St S A) (f : A -> St S B) s r s' :
  bind m f s = Ok (r, s') -> exists a s1, m s = Ok (a, s1) /\ f a s1 = Ok (r, s').
Proof.
  rewrite bind_unfold. destruct (m s) as [[a s1]|e]; [|discriminate].
  intros H. now exists a, s1.
Qed.

Lemma get_inv n b bs b' :
  get n b = Ok (bs, b') ->
  b' = with_position (m_position b + n) b
  /\ bs = bytes_at b n /\ Z.of_nat (length bs) = n
  /\ 0 <= n /\ m_position b + n <= m_limit b.
Proof.
  unfold get.
  destruct (Z.ltb_spec n 0); [discriminate|].
  destruct (Z.ltb_spec (m_limit b - m_position b) n); [discriminate|]. cbn [orb].
  destruct (Z.eqb_spec (Z.of_nat (length (bytes_at b n))) n); [|discriminate].
  intros [= <- <-]. repeat split; auto; lia.
Qed.

Lemma getInt_inv n (reader : M Z) b v b' :
  reader = bind (get n) (fun bs => ret (Bytes.be_signed bs)) ->
  reader b = Ok (v, b') ->
  b' = with_position (m_position b + n) b
  /\ v = Bytes.be_signed (bytes_at b n) /\ Z.of_nat (length (bytes_at b n)) = n
  /\ m_position b + n <= m_limit b.
Proof.
  intros -> H. apply bind_inv in H as (bs & b1 & Hget & Hret).
  apply get_inv in Hget as (-> & -> & Hlen & _ & Hlim).
  unfold ret in Hret. injection Hret as <- <-. auto.
Qed.

Lemma getInt_signed_range n (reader : M Z) b v b' :
  reader = bind (get n) (fun bs => ret (Bytes.be_signed bs)) -> 0 < n ->
  reader b = Ok (v, b') -> Int.in_range (8 * n) v.
Proof.
  intros Hr Hn H. destruct (getInt_inv n reader b v b' Hr H) as (_ & -> & Hlen & _).
  pose proof (be_signed_range (bytes_at b n)) as Hrange. rewrite Hlen in Hrange.
  apply Hrange. intros Hnil. rewrite Hnil in Hlen. simpl in Hlen. lia.
Qed.

(** One turn of the table loop, on any buffer whose cursor and limit are
    those of an [int32_t] region: the table is the view of the
    [tableLength] bytes behind the prefix, the cursor ends behind them,
    and the limit is [startLimit] again. *)
Lemma read_table_inv startLimit ii res b res' b' :
  0 <= m_position b -> m_limit b <= Int.INT32_MAX ->
  read_table startLimit ii res b = Ok (res', b') ->
  let tableLength := Bytes.be_signed (bytes_at b 4) in
  4 <= tableLength
  /\ res' = <[ii := mkTable (mkBuffer (m_buffer b) (m_offset b + (m_position b + 4)) 0
                               tableLength tableLength)]> res
  /\ m_position b' = m_position b + 4 + tableLength
  /\ m_limit b' = startLimit
  /\ m_buffer b' = m_buffer b /\ m_offset b' = m_offset b /\ m_capacity b' = m_capacity b.
Proof.
  intros Hpos Hlim H. unfold read_table in H.
  apply bind_inv in H as (tl & b1 & Hget & H).
  pose proof (getInt_signed_range 4 getInt32 b tl b1 eq_refl ltac:(lia) Hget) as Hr.
  apply (getInt_inv 4 getInt32 _ _ _ eq_refl) in Hget as (-> & -> & _ & Hle).
  apply bind_inv in H as ([] & b2 & Hassert & H). unfold assert in Hassert.
  destruct (Z.leb_spec 4 (Bytes.be_signed (bytes_at b 4))) as [H4|H4]; [|discriminate].
  unfold ret in Hassert. injection Hassert as <-.
  apply bind_inv in H as (pos & b3 & Hp & H). unfold position in Hp.
  injection Hp as <- <-. cbn [with_position m_position] in H.
  apply bind_inv in H as ([] & b4 & Hsl & H). unfold set_limit in Hsl.
  cbn [with_position m_capacity] in Hsl.
  destruct (_ || _) eqn:Hchk in Hsl; [discriminate|]. injection Hsl as <-.
  apply orb_false_elim in Hchk as [Hneg _]. apply Z.ltb_ge in Hneg.
  unfold Int.in_range in Hr. change (2 ^ (8 * 4 - 1)) with 2147483648 in Hr.
  assert (Hw : Int.int32_add (m_position b + 4) (Bytes.be_signed (bytes_at b 4))
               = m_position b + 4 + Bytes.be_signed (bytes_at b 4)).
  { unfold Int.int32_add in *.
    destruct (Z_le_gt_dec (m_position b + 4 + Bytes.be_signed (bytes_at b 4)) Int.INT32_MAX).
    - apply wrap32_small. lia.
    - pose proof (wrap32_high (m_position b + 4 + Bytes.be_signed (bytes_at b 4))
                    ltac:(unfold Int.INT32_MAX in *; lia)). lia. }
  rewrite Hw in H.
  apply bind_inv in H as (s & b5 & Hslice & H). unfold slice in Hslice.
  cbn [with_limit with_position m_limit m_position m_buffer m_offset m_capacity] in Hslice.
  injection Hslice as <- <-.
  apply bind_inv in H as ([] & b6 & Hsl & H). unfold set_limit in Hsl.
  destruct (_ || _) in Hsl; [discriminate|]. injection Hsl as <-.
  unfold ret in H. injection H as <- <-.
  cbn [with_limit with_position m_limit m_position m_buffer m_offset m_capacity].
  repeat split; try assumption; try reflexivity.
  do 3 f_equal; lia.
Qed.

Lemma length_bytes_string bs : String.length (Bytes.bytes_string bs) = length bs.
Proof. now rewrite <- length_string_bytes, string_bytes_string. Qed.

Lemma getString_inv w b s w' b' :
  getString w b = Ok ((s, w'), b') -> Z.of_nat (String.length s) <= Int.INT32_MAX.
Proof.
  unfold getString. intros H. apply bind_inv in H as (len & b1 & Hlen & H).
  pose proof (getInt_signed_range 4 getInt32 _ _ _ eq_refl ltac:(lia) Hlen) as Hr.
  unfold Int.in_range in Hr. change (2 ^ (8 * 4 - 1)) with 2147483648 in Hr.
  destruct (len =? -1).
  - unfold ret in H. injection H as <- _ _. unfold Int.INT32_MAX. simpl. lia.
  - apply bind_inv in H as (bs & b2 & Hget & H).
    apply get_inv in Hget as (_ & _ & Hl & _).
    unfold ret in H. injection H as <- _ _.
    rewrite length_bytes_string. unfold Int.INT32_MAX. lia.
Qed.

Lemma optional_string_inv (c w : bool) b (sw : string * bool) b' :
  (if c then getString w else ret (EmptyString, w)) b = Ok (sw, b') ->
  Z.of_nat (String.length (fst sw)) <= Int.INT32_MAX
  /\ (c = false -> fst sw = EmptyString).
Proof.
  destruct c.
  - destruct sw as [s w']. intros H. split; [|discriminate].
    now apply getString_inv in H.
  - unfold ret. intros [= <- _]. split; [|reflexivity].
    unfold Int.INT32_MAX. simpl. lia.
Qed.

(** The cursor, the region and the limit after the optional skip of the
    exception block do not matter to what follows here; the table loop
    keeps the length of the vector. *)
Lemma read_tables_length n startLimit ii res b res' b' :
  read_tables n startLimit ii res b = Ok (res', b') -> length res' = length res.
Proof.
  revert ii res b. induction n as [|n IH]; intros ii res b H; cbn [read_tables] in H.
  - unfold ret in H. now injection H as <- _.
  - apply bind_inv in H as (res1 & b1 & Hone & H).
    apply IH in H. rewrite H. clear H IH.
    unfold read_table in Hone.
    apply bind_inv in Hone as (tl & b2 & _ & H).
    apply bind_inv in H as (? & b3 & _ & H).
    apply bind_inv in H as (pos & b4 & _ & H).
    apply bind_inv in H as (? & b5 & _ & H).
    apply bind_inv in H as (s & b6 & _ & H).
    apply bind_inv in H as (? & b7 & _ & H).
    unfold ret in H. injection H as <- _. apply length_insert.
Qed.

Lemma vector_resize_inv n b res b' :
  vector_resize n b = Ok (res, b') ->
  res = replicate (Z.to_nat n) Table_default /\ n <= Int.vector_max_size /\ b' = b.
Proof.
  unfold vector_resize. destruct (Z.ltb_spec Int.vector_max_size n); [discriminate|].
  unfold ret. intros [= <- <-]. auto.
Qed.

(** What a response the parsing constructor has built tells about the
    bytes it was built from, whatever they are. *)
Lemma parse_response_inv data k r b' :
  parse_response (SharedByteBuffer_new data k) = Ok (r, b') ->
  Bytes.be_signed (take 1 data) = 0
  /\ m_clientData r = Bytes.be_signed (take 8 (drop 1 data))
  /\ m_statusCode r = Bytes.be_signed (take 1 (drop 10 data))
  /\ (Z.testbit (Bytes.be_signed (take 1 (drop 9 data))) 5 = false -> m_statusString r = EmptyString)
  /\ (Z.testbit (Bytes.be_signed (take 1 (drop 9 data))) 7 = false -> m_appStatusString r = EmptyString)
  /\ valid_response r.
Proof.
  unfold parse_response, SharedByteBuffer_new. intros H.
  apply bind_inv in H as (version & b1 & Hversion & H).
  apply (getInt_inv 1 getInt8 _ _ _ eq_refl) in Hversion as (-> & -> & _ & _).
  apply bind_inv in H as ([] & b2 & Hassert & H). unfold assert in Hassert.
  destruct (Z.eqb_spec (Bytes.be_signed (bytes_at (mkBuffer data 0 0 k k) 1)) 0)
    as [Hv|]; [|discriminate].
  unfold ret in Hassert. injection Hassert as <-.
  apply bind_inv in H as (cd & b3 & Hcd & H).
  pose proof (getInt_signed_range 8 getInt64 _ _ _ eq_refl ltac:(lia) Hcd) as Rcd.
  apply (getInt_inv 8 getInt64 _ _ _ eq_refl) in Hcd as (-> & -> & _ & _).
  apply bind_inv in H as (pf & b4 & Hpf & H).
  apply (getInt_inv 1 getInt8 _ _ _ eq_refl) in Hpf as (-> & -> & _ & _).
  apply bind_inv in H as (sc & b5 & Hsc & H).
  pose proof (getInt_signed_range 1 getInt8 _ _ _ eq_refl ltac:(lia) Hsc) as Rsc.
  apply (getInt_inv 1 getInt8 _ _ _ eq_refl) in Hsc as (-> & -> & _ & _).
  cbv zeta in H. rewrite !present_bit in H by lia.
  apply bind_inv in H as (s1 & b6 & Hs1 & H).
  apply optional_string_inv in Hs1 as [Ls1 Es1].
  apply bind_inv in H as (asc & b7 & Hasc & H).
  pose proof (getInt_signed_range 1 getInt8 _ _ _ eq_refl ltac:(lia) Hasc) as Rasc.
  apply bind_inv in H as (s2 & b8 & Hs2 & H).
  apply optional_string_inv in Hs2 as [Ls2 Es2].
  apply bind_inv in H as (? & b9 & _ & H).
  apply bind_inv in H as (crt & b10 & Hcrt & H).
  pose proof (getInt_signed_range 4 getInt32 _ _ _ eq_refl ltac:(lia) Hcrt) as Rcrt.
  apply bind_inv in H as (? & b11 & _ & H).
  apply bind_inv in H as (count & b12 & _ & H).
  apply bind_inv in H as (res0 & b13 & Hres & H).
  apply vector_resize_inv in Hres as (-> & Hmax & ->).
  apply bind_inv in H as (startLimit & b14 & _ & H).
  apply bind_inv in H as (res1 & b15 & Hloop & H).
  apply read_tables_length in Hloop. rewrite length_replicate in Hloop.
  unfold ret in H. injection H as <- _.
  unfold bytes_at, with_position in *.
  cbn [m_buffer m_offset m_position] in *.
  split; [exact Hv|]. split; [reflexivity|]. split; [reflexivity|].
  split; [exact Es1|]. split; [exact Es2|].
  constructor; cbn [m_clientData m_statusCode m_statusString m_appStatusCode
                    m_appStatusString m_clusterRoundTripTime m_results];
    try assumption.
  rewrite Hloop.
  assert (0 <= Int.to_size_t count).
  { unfold Int.to_size_t. apply Z.mod_pos_bound. reflexivity. }
  lia.
Qed.

(* ===================================================================== *)
(** ** The sample frames *)
(* ===================================================================== *)

Ltac in_range := unfold Int.in_range, Int.INT32_MAX; simpl; lia.

Lemma frame_ping_shaped : Wire.shaped Wire.frame_ping.
Proof. constructor; cbn; try in_range; try constructor; try reflexivity. Qed.

Lemma frame_ping_well_formed : Wire.well_formed Wire.frame_ping.
Proof. constructor; cbn; try lia; try constructor; discriminate. Qed.

Lemma frame_bad_shaped : Wire.shaped Wire.frame_bad.
Proof. constructor; cbn; try in_range; try constructor; try reflexivity. Qed.

Lemma frame_bad_well_formed : Wire.well_formed Wire.frame_bad.
Proof. constructor; cbn; try lia; try constructor; discriminate. Qed.

Lemma frame_full_shaped : Wire.shaped Wire.frame_full.
Proof.
  constructor; cbn; try in_range; try reflexivity.
  repeat constructor; in_range.
Qed.

Lemma frame_full_well_formed : Wire.well_formed Wire.frame_full.
Proof.
  constructor; cbn; try lia; try discriminate.
  repeat constructor; cbn; lia.
Qed.

Lemma frame_null_shaped : Wire.shaped Wire.frame_null.
Proof.
  constructor; cbn; try in_range; try reflexivity; try exact I.
  repeat constructor; in_range.
Qed.

(* ===================================================================== *)
(** ** The parsing constructor and the wire layout *)
(* ===================================================================== *)

Lemma length_optional_string c s :
  Wire.string_present c s ->
  Z.of_nat (length (Wire.encode_optional c (Wire.encode_string s)))
  = if c then 4 + Z.of_nat (String.length (default EmptyString s)) else 0.
Proof.
  intros Hs. destruct c; cbn [Wire.encode_optional]; [|reflexivity].
  rewrite length_encode_string. destruct s; [reflexivity|].
  now destruct Hs.
Qed.

Lemma length_optional_block c bs :
  Z.of_nat (length (Wire.encode_optional c (Wire.encode_block bs)))
  = if c then 4 + Z.of_nat (length bs) else 0.
Proof.
  destruct c; cbn [Wire.encode_optional]; [|reflexivity]. apply length_encode_block.
Qed.

(** C1. On every well-formed invocation-response frame the parsing
    constructor returns, having read version, clientData, presentFields,
    statusCode, the status string, appStatusCode, the appStatusString,
    clusterRoundTripTime, the exception block and resultCount in the
    order of the wire layout: the status string is consumed exactly when
    bit 5 of presentFields is set, the exception block (its length prefix
    and that many bytes) exactly when bit 6 is set and without influence
    on the response, the appStatusString exactly when bit 7 is set; the
    stored clientData, statusCode, appStatusCode and clusterRoundTripTime
    are the big-endian values of the frame. *)
Theorem parse_follows_wire_layout (f : Wire.frame) (post : list byte) (k : Z) :
  Wire.shaped f -> Wire.well_formed f ->
  Z.of_nat (length (Wire.encode f)) <= k <= Int.INT32_MAX ->
  exists r b',
    parse_response (SharedByteBuffer_new (Wire.encode f ++ post) k) = Ok (r, b')
    /\ InvocationResponse_parse (Wire.encode f ++ post) k = Ok r
    /\ m_position b'
       = 11
         + (if Z.testbit (Wire.presentFields f) 5
            then 4 + Z.of_nat (String.length (default EmptyString (Wire.statusString f)))
            else 0)
         + 1
         + (if Z.testbit (Wire.presentFields f) 7
            then 4 + Z.of_nat (String.length (default EmptyString (Wire.appStatusString f)))
            else 0)
         + 4
         + (if Z.testbit (Wire.presentFields f) 6
            then 4 + Z.of_nat (length (Wire.exception f))
            else 0)
         + 2
         + Z.of_nat (length (Wire.encode_tables (Wire.tables f)))
    /\ clientData r = Wire.clientData f
    /\ statusCode r = Wire.statusCode f
    /\ statusString r
       = (if Z.testbit (Wire.presentFields f) 5
          then default EmptyString (Wire.statusString f) else EmptyString)
    /\ appStatusCode r = Wire.appStatusCode f
    /\ appStatusString r
       = (if Z.testbit (Wire.presentFields f) 7
          then default EmptyString (Wire.appStatusString f) else EmptyString)
    /\ clusterRoundTripTime r = Wire.clusterRoundTripTime f
    /\ Z.of_nat (length (results r)) = Wire.resultCount f.
Proof.
  intros Hsh Hwf Hk.
  exists (Wire.response_of (Wire.encode f ++ post) f),
         (buffer_at (Wire.encode f ++ post) k (Z.of_nat (length (Wire.encode f)))).
  split; [now apply parse_well_formed|].
  split; [now apply InvocationResponse_parse_well_formed|].
  split.
  - cbn [buffer_at m_position]. rewrite length_encode, length_encode_head.
    rewrite !length_optional_string by apply Hwf. rewrite length_optional_block.
    reflexivity.
  - repeat split.
    unfold results, Wire.response_of. cbn [m_results].
    rewrite length_table_views. symmetry. apply Hsh. apply Hwf.
Qed.

Lemma parse_follows_wire_layout_witness :
  exists r b',
    parse_response (SharedByteBuffer_new (Wire.encode Wire.frame_full ++ []) 67) = Ok (r, b')
    /\ InvocationResponse_parse (Wire.encode Wire.frame_full ++ []) 67 = Ok r
    /\ m_position b' = 11 + (4 + 5) + 1 + (4 + 3) + 4 + (4 + 11) + 2 + 18
    /\ clientData r = 258
    /\ statusCode r = -1
    /\ statusString r = "abort"%string
    /\ appStatusCode r = 5
    /\ appStatusString r = "app"%string
    /\ clusterRoundTripTime r = 40
    /\ Z.of_nat (length (results r)) = 2.
Proof.
  apply (parse_follows_wire_layout Wire.frame_full [] 67
           frame_full_shaped frame_full_well_formed).
  vm_compute. split; intro; discriminate.
Defined.

(** C2. On every well-formed frame announcing [resultCount] tables the
    parsing constructor builds exactly [resultCount] result tables; table
    [ii] is the view of the region that starts right behind its length
    prefix and spans exactly [tableLength] bytes, the payload of that
    table. Each turn of the loop, on any buffer, leaves the limit at the
    value it had before the loop, so the next prefix is read under the
    original limit. *)
Theorem tables_are_bounded_slices (f : Wire.frame) (post : list byte) (k : Z) :
  Wire.shaped f -> Wire.well_formed f ->
  Z.of_nat (length (Wire.encode f)) <= k <= Int.INT32_MAX ->
  (exists r b',
      parse_response (SharedByteBuffer_new (Wire.encode f ++ post) k) = Ok (r, b')
      /\ m_limit b' = k
      /\ Z.of_nat (length (results r)) = Wire.resultCount f
      /\ forall ii t,
          Wire.tables f !! ii = Some t ->
          let prefix := Z.of_nat (length (Wire.encode_head f))
                        + Z.of_nat (length (Wire.encode_tables (take ii (Wire.tables f)))) in
          take 4 (drop (Z.to_nat prefix) (Wire.encode f ++ post))
          = Bytes.be_encode 4 (Z.of_nat (length t))
          /\ results r !! ii
             = Some (mkTable (mkBuffer (Wire.encode f ++ post) (prefix + 4) 0
                                (Z.of_nat (length t)) (Z.of_nat (length t))))
          /\ contents (mkBuffer (Wire.encode f ++ post) (prefix + 4) 0
                         (Z.of_nat (length t)) (Z.of_nat (length t))) = t)
  /\ (forall startLimit ii res b res' b',
         0 <= m_position b -> m_limit b <= Int.INT32_MAX ->
         read_table startLimit ii res b = Ok (res', b') ->
         m_limit b' = startLimit
         /\ m_position b' = m_position b + 4 + Bytes.be_signed (bytes_at b 4)
         /\ res' = <[ii := mkTable (mkBuffer (m_buffer b)
                                       (m_offset b + (m_position b + 4)) 0
                                       (Bytes.be_signed (bytes_at b 4))
                                       (Bytes.be_signed (bytes_at b 4)))]> res).
Proof.
  intros Hsh Hwf Hk. split.
  - exists (Wire.response_of (Wire.encode f ++ post) f),
           (buffer_at (Wire.encode f ++ post) k (Z.of_nat (length (Wire.encode f)))).
    split; [now apply parse_well_formed|]. split; [reflexivity|].
    split.
    { unfold results, Wire.response_of. cbn [m_results].
      rewrite length_table_views. symmetry. apply Hsh. apply Hwf. }
    intros ii t Hii prefix.
    assert (Hsplit : Wire.encode f ++ post
                     = (Wire.encode_head f ++ Wire.encode_tables (take ii (Wire.tables f)))
                       ++ Bytes.be_encode 4 (Z.of_nat (length t))
                       ++ t ++ Wire.encode_tables (drop (S ii) (Wire.tables f)) ++ post).
    { unfold Wire.encode.
      rewrite <- (take_drop_middle (Wire.tables f) ii t Hii) at 1.
      rewrite encode_tables_app, encode_tables_cons. unfold Wire.encode_block.
      now rewrite <- !app_assoc. }
    assert (Hprefix : Z.to_nat prefix
                      = length (Wire.encode_head f
                                ++ Wire.encode_tables (take ii (Wire.tables f)))).
    { subst prefix. rewrite length_app. lia. }
    split; [|split].
    + rewrite Hprefix, Hsplit, drop_app_length.
      rewrite <- (length_be_encode 4 (Z.of_nat (length t))) at 1.
      apply take_app_length.
    + unfold results, Wire.response_of. cbn [m_results].
      rewrite (table_views_lookup _ _ _ _ _ Hii). reflexivity.
    + unfold contents. cbn [m_limit m_offset m_buffer].
      replace (Z.to_nat (prefix + 4)) with (Z.to_nat prefix + 4)%nat by lia.
      rewrite <- drop_drop, Hprefix, Hsplit, drop_app_length.
      rewrite <- (length_be_encode 4 (Z.of_nat (length t))) at 1.
      rewrite drop_app_length, Nat2Z.id. apply take_app_length.
  - intros startLimit ii res b res' b' Hpos Hlim Hrun.
    destruct (read_table_inv _ _ _ _ _ _ Hpos Hlim Hrun) as (_ & Hres & Hp & Hl & _).
    auto.
Qed.

Lemma tables_are_bounded_slices_witness :
  exists r b',
    parse_response (SharedByteBuffer_new (Wire.encode Wire.frame_full ++ []) 67) = Ok (r, b')
    /\ m_limit b' = 67
    /\ Z.of_nat (length (results r)) = 2.
Proof.
  destruct (tables_are_bounded_slices Wire.frame_full [] 67
              frame_full_shaped frame_full_well_formed)
    as [(r & b' & Hrun & Hlimit & Hcount & _) _].
  - vm_compute. split; intro; discriminate.
  - exists r, b'. auto.
Defined.

(** C3. A default-constructed response has status code -4
    (CONNECTION_LOST), application status code -128, client data 0,
    cluster round-trip time 0, a non-empty default status string, an
    empty application status string and no result table. *)
Theorem default_response_is_connection_lost :
  statusCode InvocationResponse_default = -4
  /\ statusCode InvocationResponse_default = StatusCode_value STATUS_CODE_CONNECTION_LOST
  /\ appStatusCode InvocationResponse_default = -128
  /\ clientData InvocationResponse_default = 0
  /\ clusterRoundTripTime InvocationResponse_default = 0
  /\ statusString InvocationResponse_default = "Connection to the database was lost"%string
  /\ statusString InvocationResponse_default <> EmptyString
  /\ appStatusString InvocationResponse_default = EmptyString
  /\ results InvocationResponse_default = []
  /\ length (results InvocationResponse_default) = 0%nat.
Proof. repeat split; try reflexivity. discriminate. Qed.

(** C4. The five status codes have the values SUCCESS = 1,
    USER_ABORT = -1, GRACEFUL_FAILURE = -2, UNEXPECTED_FAILURE = -3 and
    CONNECTION_LOST = -4. *)
Theorem status_code_values :
  StatusCode_value STATUS_CODE_SUCCESS = 1
  /\ StatusCode_value STATUS_CODE_USER_ABORT = -1
  /\ StatusCode_value STATUS_CODE_GRACEFUL_FAILURE = -2
  /\ StatusCode_value STATUS_CODE_UNEXPECTED_FAILURE = -3
  /\ StatusCode_value STATUS_CODE_CONNECTION_LOST = -4.
Proof. repeat split. Qed.

(** C5. [success()] is true exactly when the status code is 1, and
    [failure()] is its negation. A frame carrying status code -2, the
    status string "constraint" and no table parses to a response with
    [failure()], that status string and no result; a frame carrying
    status code 1, no status string and no table parses to a response
    with [success()], an empty status string and no result. *)
Theorem success_is_status_one :
  (forall r, success r = true <-> statusCode r = 1)
  /\ (forall r, failure r = negb (success r))
  /\ (forall f post k,
         Wire.shaped f -> Wire.well_formed f ->
         Z.of_nat (length (Wire.encode f)) <= k <= Int.INT32_MAX ->
         Wire.statusCode f = -2 ->
         Z.testbit (Wire.presentFields f) 5 = true ->
         Wire.statusString f = Some "constraint"%string ->
         Wire.resultCount f = 0 ->
         exists r, InvocationResponse_parse (Wire.encode f ++ post) k = Ok r
                   /\ failure r = true
                   /\ statusString r = "constraint"%string
                   /\ length (results r) = 0%nat)
  /\ (forall f post k,
         Wire.shaped f -> Wire.well_formed f ->
         Z.of_nat (length (Wire.encode f)) <= k <= Int.INT32_MAX ->
         Wire.statusCode f = 1 ->
         Z.testbit (Wire.presentFields f) 5 = false ->
         Wire.resultCount f = 0 ->
         exists r, InvocationResponse_parse (Wire.encode f ++ post) k = Ok r
                   /\ success r = true
                   /\ statusString r = EmptyString
                   /\ results r = []).
Proof.
  split; [|split; [|split]].
  - intros r. unfold success, statusCode. cbn [StatusCode_value]. apply Z.eqb_eq.
  - reflexivity.
  - intros f post k Hsh Hwf Hk Hsc Hbit Hstr Hrc.
    exists (Wire.response_of (Wire.encode f ++ post) f).
    split; [now apply InvocationResponse_parse_well_formed|].
    unfold failure, statusString, results, Wire.response_of, Wire.has_statusString.
    cbn [m_statusCode m_statusString m_results].
    rewrite Hsc, Hbit, Hstr, length_table_views.
    repeat split. pose proof (Wire.shaped_tables f Hsh) as Hts.
    rewrite Hrc in Hts. specialize (Hts ltac:(lia)). lia.
  - intros f post k Hsh Hwf Hk Hsc Hbit Hrc.
    exists (Wire.response_of (Wire.encode f ++ post) f).
    split; [now apply InvocationResponse_parse_well_formed|].
    unfold success, statusString, results, Wire.response_of, Wire.has_statusString.
    cbn [m_statusCode m_statusString m_results].
    rewrite Hsc, Hbit. repeat split.
    pose proof (Wire.shaped_tables f Hsh) as Hts.
    rewrite Hrc in Hts. specialize (Hts ltac:(lia)).
    destruct (Wire.tables f); [reflexivity|simpl in Hts; lia].
Qed.

Lemma success_is_status_one_witness :
  (exists r, InvocationResponse_parse (Wire.encode Wire.frame_bad ++ []) 34 = Ok r
             /\ failure r = true
             /\ statusString r = "constraint"%string
             /\ length (results r) = 0%nat)
  /\ (exists r, InvocationResponse_parse (Wire.encode Wire.frame_ping ++ []) 20 = Ok r
                /\ success r = true
                /\ statusString r = EmptyString
                /\ results r = []).
Proof.
  destruct success_is_status_one as (_ & _ & Hbad & Hping). split.
  - apply (Hbad Wire.frame_bad [] 34 frame_bad_shaped frame_bad_well_formed);
      try reflexivity.
    vm_compute. split; intro; discriminate.
  - apply (Hping Wire.frame_ping [] 20 frame_ping_shaped frame_ping_well_formed);
      try reflexivity.
    vm_compute. split; intro; discriminate.
Defined.

(** C6. The parsing constructor returns (every assertion holds and no
    read crosses the limit) exactly under these preconditions: the
    version byte is 0, no string behind a set presence bit is null, the
    result count is not negative, every table length is at least 4, and
    the given length covers all the bytes the frame announces. *)
Theorem parse_returns_iff_preconditions (f : Wire.frame) (post : list byte) (k : Z) :
  Wire.shaped f -> k <= Int.INT32_MAX ->
  (exists r, InvocationResponse_parse (Wire.encode f ++ post) k = Ok r)
  <-> (Wire.version f = 0
       /\ (Z.testbit (Wire.presentFields f) 5 = true -> Wire.statusString f <> None)
       /\ (Z.testbit (Wire.presentFields f) 7 = true -> Wire.appStatusString f <> None)
       /\ 0 <= Wire.resultCount f
       /\ Forall (fun t => 4 <= Z.of_nat (length t)) (Wire.tables f)
       /\ Z.of_nat (length (Wire.encode f)) <= k).
Proof.
  intros Hsh Hk. unfold InvocationResponse_parse. split.
  - intros [r Hr].
    destruct (parse_response _) as [[r' b']|e] eqn:Hrun; [|discriminate].
    apply (parse_response_encode f post k Hsh Hk) in Hrun as ([] & Hlen & _).
    auto 10.
  - intros (Hv & Hs1 & Hs2 & Hrc & Hts & Hlen).
    assert (Hwf : Wire.well_formed f) by (constructor; assumption).
    rewrite parse_well_formed by auto. eauto.
Qed.

Lemma parse_returns_iff_preconditions_witness :
  exists r, InvocationResponse_parse (Wire.encode Wire.frame_full ++ []) 67 = Ok r.
Proof.
  apply (parse_returns_iff_preconditions Wire.frame_full [] 67 frame_full_shaped).
  - vm_compute. intro; discriminate.
  - split; [reflexivity|]. split; [discriminate|]. split; [discriminate|].
    split; [vm_compute; intro; discriminate|].
    split; [|vm_compute; intro; discriminate].
    repeat constructor; vm_compute; intro; discriminate.
Defined.

(** A null status string behind a set presence bit fails the assertion. *)
Example parse_null_status_string :
  InvocationResponse_parse (Wire.encode Wire.frame_null) 62 = Err AssertionFailure.
Proof. reflexivity. Qed.

(** A length that cuts the last table short is refused. *)
Example parse_truncated :
  InvocationResponse_parse (Wire.encode Wire.frame_full) 66 = Err IndexOutOfBounds.
Proof. reflexivity. Qed.

(* ===================================================================== *)
(** ** The accessors *)
(* ===================================================================== *)

Lemma call_keeps Table_toString a r : snd (call Table_toString a r) = r.
Proof. now destruct a. Qed.

Lemma calls_keep Table_toString l r : calls Table_toString l r = r.
Proof.
  unfold calls. induction l as [|a l IH]; cbn [fold_left]; [reflexivity|].
  now rewrite call_keeps.
Qed.

(** C7. A response is immutable after construction: a call of any public
    accessor (clientData, statusCode, success, failure, statusString,
    appStatusCode, appStatusString, clusterRoundTripTime, results,
    toString) leaves every field as it was, so after any sequence of
    accessor calls the response is the same, and an accessor called again
    returns the value it returned before. *)
Theorem accessors_leave_response_unchanged
    (Table_toString : Table -> string -> string)
    (a : accessor) (l : list accessor) (r : InvocationResponse) :
  snd (call Table_toString a r) = r
  /\ calls Table_toString l r = r
  /\ fst (call Table_toString a (calls Table_toString l r)) = fst (call Table_toString a r)
  /\ fst (call Table_toString a (snd (call Table_toString a r)))
     = fst (call Table_toString a r).
Proof.
  repeat split.
  - apply call_keeps.
  - apply calls_keep.
  - now rewrite calls_keep.
  - now rewrite call_keeps.
Qed.

(* ===================================================================== *)
(** ** Optional strings that are not on the wire *)
(* ===================================================================== *)

Lemma be_signed_byte_bit5 b :
  Z.testbit (Bytes.be_signed [b]) 5 = Z.testbit (Bytes.byte_to_Z b) 5.
Proof. destruct b; reflexivity. Qed.

Lemma be_signed_byte_bit7 b :
  Z.testbit (Bytes.be_signed [b]) 7 = Z.testbit (Bytes.byte_to_Z b) 7.
Proof. destruct b; reflexivity. Qed.

Lemma take1_drop (data : list byte) i b :
  data !! i = Some b -> take 1 (drop i data) = [b].
Proof. intros H. now rewrite (drop_S _ _ _ H). Qed.

(** C10. When bit 5 of the presentFields byte of the received bytes is
    clear, [statusString()] of the parsed response is the empty string,
    and when bit 7 is clear, [appStatusString()] is the empty string. *)
Theorem absent_strings_are_empty (data : list byte) (k : Z)
    (r : InvocationResponse) (presentFields : byte) :
  InvocationResponse_parse data k = Ok r ->
  data !! 9%nat = Some presentFields ->
  (Z.testbit (Bytes.byte_to_Z presentFields) 5 = false -> statusString r = EmptyString)
  /\ (Z.testbit (Bytes.byte_to_Z presentFields) 7 = false -> appStatusString r = EmptyString).
Proof.
  unfold InvocationResponse_parse. intros Hparse Hpf.
  destruct (parse_response _) as [[r' b']|e] eqn:Hrun; [|discriminate].
  injection Hparse as ->.
  apply parse_response_inv in Hrun as (_ & _ & _ & H5 & H7 & _).
  rewrite (take1_drop _ _ _ Hpf) in H5, H7.
  rewrite be_signed_byte_bit5 in H5. rewrite be_signed_byte_bit7 in H7.
  split; assumption.
Qed.

Lemma absent_strings_are_empty_witness :
  (Z.testbit (Bytes.byte_to_Z "000"%byte) 5 = false ->
   statusString (Wire.response_of (Wire.encode Wire.frame_ping) Wire.frame_ping)
   = EmptyString)
  /\ (Z.testbit (Bytes.byte_to_Z "000"%byte) 7 = false ->
      appStatusString (Wire.response_of (Wire.encode Wire.frame_ping) Wire.frame_ping)
      = EmptyString).
Proof.
  apply (absent_strings_are_empty (Wire.encode Wire.frame_ping) 20 _ "000"%byte);
    reflexivity.
Defined.

(* ===================================================================== *)
(** ** The stream form *)
(* ===================================================================== *)

Lemma length_native_encode beh n z : length (native_encode beh n z) = n.
Proof.
  unfold native_encode. destruct beh; [|rewrite length_rev]; apply length_be_encode.
Qed.

Lemma native_signed_encode beh n z :
  (0 < n)%nat -> Int.in_range (8 * Z.of_nat n) z ->
  native_signed beh (native_encode beh n z) = z.
Proof.
  intros Hn Hz. unfold native_signed, native_encode.
  destruct beh; [|rewrite rev_involutive]; now apply be_signed_encode.
Qed.

Lemma native_unsigned_encode beh n z :
  0 <= z < 2 ^ (8 * Z.of_nat n) ->
  native_unsigned beh (native_encode beh n z) = z.
Proof.
  intros Hz. unfold native_unsigned, native_encode.
  destruct beh; [|rewrite rev_involutive];
    rewrite be_decode_encode; now apply Z.mod_small.
Qed.

Lemma istream_read_app n (x rest : list byte) :
  Z.of_nat (length x) = n -> istream_read n (x ++ rest) = Ok (x, rest).
Proof.
  intros <-. unfold istream_read. rewrite length_app, Nat2Z.id.
  destruct (Z.ltb_spec (Z.of_nat (length x + length rest)) (Z.of_nat (length x))); [lia|].
  now rewrite take_app_length, drop_app_length.
Qed.

(** What [writeString] appends for a string whose size fits [int32_t]. *)
Lemma writeString_fits beh ostream str :
  Z.of_nat (String.length str) <= Int.INT32_MAX ->
  writeString beh ostream str
  = ostream ++ native_encode beh 4 (Z.of_nat (String.length str)) ++ Bytes.string_bytes str.
Proof.
  intros Hfit. unfold writeString. rewrite wrap32_small by lia.
  destruct (Z.eqb_spec (Z.of_nat (String.length str)) 0) as [Hz|Hnz]; cbn [negb].
  - assert (Hnil : Bytes.string_bytes str = []).
    { apply length_zero_iff_nil. rewrite length_string_bytes. lia. }
    now rewrite Hnil, app_nil_r.
  - rewrite Nat2Z.id, take_ge by (rewrite length_string_bytes; lia).
    now rewrite <- app_assoc.
Qed.

Lemma readString_written beh str rest :
  Z.of_nat (String.length str) <= Int.INT32_MAX ->
  readString beh (native_encode beh 4 (Z.of_nat (String.length str))
                  ++ Bytes.string_bytes str ++ rest)
  = Ok (str, rest).
Proof.
  intros Hfit. unfold readString.
  rewrite bind_unfold, (istream_read_app 4) by (now rewrite length_native_encode).
  rewrite native_signed_encode by (try apply length_in_range32; lia).
  destruct (Z.eqb_spec (Z.of_nat (String.length str)) 0) as [Hz|Hnz]; cbn [negb].
  - assert (Hnil : Bytes.string_bytes str = []).
    { apply length_zero_iff_nil. rewrite length_string_bytes. lia. }
    rewrite Hnil. cbn [app]. unfold ret. f_equal. f_equal.
    destruct str; [reflexivity|simpl in Hz; lia].
  - destruct (Z.ltb_spec (Z.of_nat (String.length str)) 0); [lia|].
    rewrite bind_unfold, istream_read_app by (now rewrite length_string_bytes).
    unfold ret. now rewrite bytes_string_bytes.
Qed.

Lemma write_tables_concat (Table_write : Table -> list byte) ts ostream :
  fold_left (fun o t => o ++ Table_write t) ts ostream
  = ostream ++ concat (map Table_write ts).
Proof.
  revert ostream. induction ts as [|t ts IH]; intros ostream; cbn [fold_left map concat].
  - now rewrite app_nil_r.
  - now rewrite IH, <- app_assoc.
Qed.

Lemma read_stream_tables_length (Table_read : St (list byte) Table) n ii res s res' s' :
  read_stream_tables Table_read n ii res s = Ok (res', s') -> length res' = length res.
Proof.
  revert ii res s. induction n as [|n IH]; intros ii res s H; cbn [read_stream_tables] in H.
  - unfold ret in H. now injection H as <- _.
  - apply bind_inv in H as (t & s1 & _ & H). apply IH in H.
    now rewrite H, length_insert.
Qed.

Lemma read_stream_tables_written
    (Table_write : Table -> list byte) (Table_read : St (list byte) Table) :
  (forall t rest, exists t', Table_read (Table_write t ++ rest) = Ok (t', rest)) ->
  forall ts ii res rest,
  exists res',
    read_stream_tables Table_read (length ts) ii res (concat (map Table_write ts) ++ rest)
    = Ok (res', rest).
Proof.
  intros Hround ts. induction ts as [|t ts IH]; intros ii res rest;
    cbn [length read_stream_tables map concat].
  - exists res. reflexivity.
  - rewrite <- app_assoc, bind_unfold.
    destruct (Hround t (concat (map Table_write ts) ++ rest)) as [t' ->].
    apply IH.
Qed.

(* ===================================================================== *)
(** ** The representation invariant *)
(* ===================================================================== *)

Lemma default_response_valid : valid_response InvocationResponse_default.
Proof. constructor; vm_compute; try split; (reflexivity || (intro; discriminate)). Qed.

Lemma parsed_response_valid data k r :
  InvocationResponse_parse data k = Ok r -> valid_response r.
Proof.
  unfold InvocationResponse_parse.
  destruct (parse_response _) as [[r' b']|e] eqn:Hrun; [|discriminate].
  intros [= <-]. now apply parse_response_inv in Hrun.
Qed.

Lemma istream_read_inv n s bs s' :
  0 <= n -> istream_read n s = Ok (bs, s') -> Z.of_nat (length bs) = n.
Proof.
  unfold istream_read. intros Hn.
  destruct (Z.ltb_spec (Z.of_nat (length s)) n); [discriminate|].
  intros [= <- _]. rewrite length_take. lia.
Qed.

Lemma native_signed_range beh n bs :
  0 < n -> Z.of_nat (length bs) = n -> Int.in_range (8 * n) (native_signed beh bs).
Proof.
  intros Hn Hlen. unfold native_signed.
  assert (Hl : Z.of_nat (length (if beh then bs else rev bs)) = n)
    by (destruct beh; [|rewrite length_rev]; assumption).
  rewrite <- Hl. apply be_signed_range.
  intros Hnil. rewrite Hnil in Hl. simpl in Hl. lia.
Qed.

Lemma readString_inv beh s str s' :
  readString beh s = Ok (str, s') -> Z.of_nat (String.length str) <= Int.INT32_MAX.
Proof.
  unfold readString. intros H. apply bind_inv in H as (sz & s1 & Hsz & H).
  apply istream_read_inv in Hsz; [|lia].
  pose proof (native_signed_range beh 4 sz ltac:(lia) Hsz) as Hr.
  unfold Int.in_range in Hr. change (2 ^ (8 * 4 - 1)) with 2147483648 in Hr.
  destruct (native_signed beh sz =? 0); cbn [negb] in H.
  - unfold ret in H. injection H as <- _. vm_compute. discriminate.
  - destruct (Z.ltb_spec (native_signed beh sz) 0); [discriminate|].
    apply bind_inv in H as (bs & s2 & Hbs & H).
    apply istream_read_inv in Hbs; [|assumption].
    unfold ret in H. injection H as <- _.
    rewrite length_bytes_string. unfold Int.INT32_MAX. lia.
Qed.

Lemma streamed_response_valid (Table_read : St (list byte) Table) beh istream r :
  InvocationResponse_from_stream Table_read beh istream = Ok r -> valid_response r.
Proof.
  unfold InvocationResponse_from_stream.
  destruct (read_response _ _ _) as [[r' s']|e] eqn:Hrun; [|discriminate].
  intros [= <-]. unfold read_response in Hrun.
  apply bind_inv in Hrun as (sc & s1 & Hsc & H). apply istream_read_inv in Hsc; [|lia].
  apply bind_inv in H as (ss & s2 & Hss & H). apply readString_inv in Hss.
  apply bind_inv in H as (asc & s3 & Hasc & H). apply istream_read_inv in Hasc; [|lia].
  apply bind_inv in H as (ass & s4 & Hass & H). apply readString_inv in Hass.
  apply bind_inv in H as (cd & s5 & Hcd & H). apply istream_read_inv in Hcd; [|lia].
  apply bind_inv in H as (crt & s6 & Hcrt & H). apply istream_read_inv in Hcrt; [|lia].
  apply bind_inv in H as (sz & s7 & Hsz & H). cbv zeta in H.
  apply bind_inv in H as (res0 & s8 & Hres0 & H).
  destruct (Z.ltb_spec Int.vector_max_size (native_unsigned beh sz)) as [|Hmax];
    [discriminate|].
  unfold ret in Hres0. injection Hres0 as <- <-.
  apply bind_inv in H as (res1 & s9 & Hloop & H).
  apply read_stream_tables_length in Hloop. rewrite length_replicate in Hloop.
  unfold ret in H. injection H as <- _.
  constructor; cbn [m_clientData m_statusCode m_statusString m_appStatusCode
                    m_appStatusString m_clusterRoundTripTime m_results];
    try assumption.
  - now apply (native_signed_range beh 8).
  - now apply (native_signed_range beh 1).
  - now apply (native_signed_range beh 1).
  - now apply (native_signed_range beh 4).
  - rewrite Hloop.
    assert (0 <= native_unsigned beh sz) by (unfold native_unsigned; apply be_decode_range).
    lia.
Qed.

(** The bytes [operator >>] writes for a valid response. *)
Lemma write_to_stream_layout (Table_write : Table -> list byte) beh r :
  valid_response r ->
  write_to_stream Table_write beh r []
  = native_encode beh 1 (m_statusCode r)
    ++ native_encode beh 4 (Z.of_nat (String.length (m_statusString r)))
    ++ Bytes.string_bytes (m_statusString r)
    ++ native_encode beh 1 (m_appStatusCode r)
    ++ native_encode beh 4 (Z.of_nat (String.length (m_appStatusString r)))
    ++ Bytes.string_bytes (m_appStatusString r)
    ++ native_encode beh 8 (m_clientData r)
    ++ native_encode beh 4 (m_clusterRoundTripTime r)
    ++ native_encode beh 8 (Z.of_nat (length (m_results r)))
    ++ concat (map Table_write (m_results r)).
Proof.
  intros Hv. unfold write_to_stream. cbv zeta.
  rewrite write_tables_concat.
  rewrite !writeString_fits by apply Hv.
  cbn [app]. now rewrite <- !app_assoc.
Qed.

(** C9. Stream serialization round-trips: [operator >>] writes
    statusCode, statusString, appStatusCode, appStatusString, clientData,
    clusterRoundTripTime and the result tables in that order, each string
    as its native-order [int32_t] size followed by its bytes, and the
    stream constructor builds from these bytes a response with the same
    statusCode, statusString, appStatusCode, appStatusString, clientData,
    clusterRoundTripTime and number of results. The table codec of
    [Table.h] is taken as given: reading what it wrote for a table
    consumes exactly that. *)
Theorem stream_round_trip
    (Table_write : Table -> list byte) (Table_read : St (list byte) Table)
    (big_endian_host : bool) (r : InvocationResponse) :
  (forall t rest, exists t', Table_read (Table_write t ++ rest) = Ok (t', rest)) ->
  valid_response r ->
  write_to_stream Table_write big_endian_host r []
  = native_encode big_endian_host 1 (statusCode r)
    ++ native_encode big_endian_host 4 (Z.of_nat (String.length (statusString r)))
    ++ Bytes.string_bytes (statusString r)
    ++ native_encode big_endian_host 1 (appStatusCode r)
    ++ native_encode big_endian_host 4 (Z.of_nat (String.length (appStatusString r)))
    ++ Bytes.string_bytes (appStatusString r)
    ++ native_encode big_endian_host 8 (clientData r)
    ++ native_encode big_endian_host 4 (clusterRoundTripTime r)
    ++ native_encode big_endian_host 8 (Z.of_nat (length (results r)))
    ++ concat (map Table_write (results r))
  /\ exists r',
      InvocationResponse_from_stream Table_read big_endian_host
        (write_to_stream Table_write big_endian_host r []) = Ok r'
      /\ statusCode r' = statusCode r
      /\ statusString r' = statusString r
      /\ appStatusCode r' = appStatusCode r
      /\ appStatusString r' = appStatusString r
      /\ clientData r' = clientData r
      /\ clusterRoundTripTime r' = clusterRoundTripTime r
      /\ length (results r') = length (results r).
Proof.
  intros Hround Hv. split; [now apply write_to_stream_layout|].
  rewrite write_to_stream_layout by assumption.
  unfold InvocationResponse_from_stream, read_response.
  destruct Hv as [Vcd Vsc Vss Vasc Vass Vcrt Vres].
  rewrite bind_unfold, (istream_read_app 1) by (now rewrite length_native_encode).
  rewrite bind_unfold, readString_written by assumption.
  rewrite bind_unfold, (istream_read_app 1) by (now rewrite length_native_encode).
  rewrite bind_unfold, readString_written by assumption.
  rewrite bind_unfold, (istream_read_app 8) by (now rewrite length_native_encode).
  rewrite bind_unfold, (istream_read_app 4) by (now rewrite length_native_encode).
  rewrite bind_unfold, (istream_read_app 8) by (now rewrite length_native_encode).
  cbv zeta. rewrite native_unsigned_encode.
  2:{ unfold Int.vector_max_size, Int.size_t_bits in Vres.
      change (2 ^ (64 - 1)) with 9223372036854775808 in Vres.
      change (2 ^ (8 * Z.of_nat 8)) with 18446744073709551616. lia. }
  rewrite bind_unfold.
  destruct (Z.ltb_spec Int.vector_max_size (Z.of_nat (length (m_results r)))); [lia|].
  unfold ret at 1. cbv beta iota. rewrite bind_unfold, Nat2Z.id.
  rewrite <- (app_nil_r (concat (map Table_write (m_results r)))).
  destruct (read_stream_tables_written Table_write Table_read Hround (m_results r) 0%nat
              (replicate (length (m_results r)) Table_default) []) as [res' Hres].
  rewrite Hres. apply read_stream_tables_length in Hres.
  rewrite length_replicate in Hres.
  unfold ret. eexists. split; [reflexivity|].
  unfold statusCode, statusString, appStatusCode, appStatusString, clientData,
    clusterRoundTripTime, results.
  cbn [m_clientData m_statusCode m_statusString m_appStatusCode m_appStatusString
       m_clusterRoundTripTime m_results].
  rewrite !native_signed_encode by (assumption || lia).
  repeat split. assumption.
Qed.

Lemma sample_response_valid :
  valid_response response_sample.
Proof. constructor; vm_compute; try split; (reflexivity || (intro; discriminate)). Qed.

Lemma stream_round_trip_witness :
  exists r',
    InvocationResponse_from_stream
      (bind (istream_read 1) (fun _ => ret Table_default)) false
      (write_to_stream (fun _ => ["001"%byte]) false
         response_sample []) = Ok r'
    /\ statusCode r' = -2
    /\ statusString r' = "constraint"%string
    /\ appStatusCode r' = -128
    /\ appStatusString r' = EmptyString
    /\ clientData r' = 7
    /\ clusterRoundTripTime r' = 12
    /\ length (results r') = 1%nat.
Proof.
  apply (stream_round_trip (fun _ => ["001"%byte])
           (bind (istream_read 1) (fun _ => ret Table_default)) false
           response_sample).
  - intros t rest. exists Table_default.
    rewrite bind_unfold, (istream_read_app 1) by reflexivity. reflexivity.
  - exact sample_response_valid.
Defined.

(* ===================================================================== *)
(** ** The event loop: lemmas *)
(* ===================================================================== *)

Lemma pumped_0 d run : Client.pumped d run 0 = d.
Proof. reflexivity. Qed.

Lemma pumped_S d ready run n :
  Client.pumped d (ready :: run) (S n) = Client.pumped (Client.pump d ready) run n.
Proof. reflexivity. Qed.

(** When the loop returns, it has pumped until the first state that is
    drained or broken, and it returns whether that state is drained. *)
Lemma drain_loop_returned run : forall d b d',
  Client.drain_loop run d = Client.Returned b d' ->
  exists n, (n <= length run)%nat
    /\ d' = Client.pumped d run n
    /\ (forall m, (m < n)%nat ->
          Client.drained (Client.pumped d run m) = false
          /\ Client.break_flag (Client.pumped d run m) = false)
    /\ b = Client.drained d'
    /\ (Client.drained d' = true \/ Client.break_flag d' = true).
Proof.
  induction run as [|ready run IH]; intros d b d' H; cbn [Client.drain_loop] in H.
  - destruct (Client.drained d) eqn:Hd.
    + injection H as <- <-. exists 0%nat. rewrite pumped_0, Hd.
      split; [cbn; lia|]. split; [reflexivity|]. split; [intros m Hm; lia|]. auto.
    + destruct (Client.break_flag d) eqn:Hb; [|discriminate].
      injection H as <- <-. exists 0%nat. rewrite pumped_0, Hd.
      split; [cbn; lia|]. split; [reflexivity|]. split; [intros m Hm; lia|]. auto.
  - destruct (Client.drained d) eqn:Hd.
    + injection H as <- <-. exists 0%nat. rewrite pumped_0, Hd.
      split; [cbn; lia|]. split; [reflexivity|]. split; [intros m Hm; lia|]. auto.
    + destruct (Client.break_flag d) eqn:Hb.
      * injection H as <- <-. exists 0%nat. rewrite pumped_0, Hd.
        split; [cbn; lia|]. split; [reflexivity|]. split; [intros m Hm; lia|]. auto.
      * apply IH in H as (n & Hn & -> & Hbefore & Hret & Hstop).
        exists (S n). rewrite pumped_S.
        split; [cbn; lia|]. split; [reflexivity|]. split; [|auto].
        intros [|m] Hm; [rewrite pumped_0; auto|].
        rewrite pumped_S. apply Hbefore. lia.
Qed.

(** When the loop waits, the run is exhausted with calls still pending
    and no break asked. *)
Lemma drain_loop_waiting run : forall d d',
  Client.drain_loop run d = Client.Waiting d' ->
  d' = Client.pumped d run (length run)
  /\ Client.drained d' = false /\ Client.break_flag d' = false.
Proof.
  induction run as [|ready run IH]; intros d d' H; cbn [Client.drain_loop] in H;
    destruct (Client.drained d) eqn:Hd; try discriminate;
    destruct (Client.break_flag d) eqn:Hb; try discriminate.
  - injection H as <-. auto.
  - apply IH in H as (-> & Hd' & Hb'). auto.
Qed.

(** The loop returns as soon as the run brings a drained or broken
    state. *)
Lemma drain_loop_returns run : forall d n,
  (n <= length run)%nat ->
  Client.drained (Client.pumped d run n) = true
  \/ Client.break_flag (Client.pumped d run n) = true ->
  exists b d', Client.drain_loop run d = Client.Returned b d'.
Proof.
  induction run as [|ready run IH]; intros d n Hn Hstop; cbn [Client.drain_loop].
  - assert (n = 0%nat) as -> by (cbn in Hn; lia). rewrite pumped_0 in Hstop.
    destruct (Client.drained d); [eauto|].
    destruct (Client.break_flag d); [eauto|]. destruct Hstop; discriminate.
  - destruct (Client.drained d) eqn:Hd; [eauto|].
    destruct (Client.break_flag d) eqn:Hb; [eauto|].
    destruct n as [|n]; [rewrite pumped_0, Hd, Hb in Hstop; destruct Hstop; discriminate|].
    rewrite pumped_S in Hstop. apply (IH _ n); [cbn in Hn; lia|assumption].
Qed.

Lemma drain_usable d run :
  Client.usable d <> [] -> Client.drain d run = Client.drain_loop run d.
Proof. unfold Client.drain. now destruct (Client.usable d). Qed.

(** C8. [drain()] fails with NoConnections when invoked with zero usable
    connections. Otherwise it pumps the event loop until every
    connection's pending-call map is empty or the break-flag has fired:
    when it returns, no state before the last pump was drained or broken,
    and it returns true exactly when all pending responses were received
    and false exactly when a callback broke the loop before that; it
    returns whenever the run of the loop reaches such a state. *)
Theorem drain_returns_whether_drained (d : Client.Dispatcher) (run : list (list Client.Event)) :
  (Client.usable d = [] -> Client.drain d run = Client.Thrown NoConnections)
  /\ (Client.usable d <> [] ->
      (forall b d',
          Client.drain d run = Client.Returned b d' ->
          (exists n, (n <= length run)%nat
             /\ d' = Client.pumped d run n
             /\ forall m, (m < n)%nat ->
                  Client.drained (Client.pumped d run m) = false
                  /\ Client.break_flag (Client.pumped d run m) = false)
          /\ (b = true <-> Client.drained d' = true)
          /\ (b = false <-> Client.drained d' = false /\ Client.break_flag d' = true))
      /\ (forall n,
             (n <= length run)%nat ->
             Client.drained (Client.pumped d run n) = true
             \/ Client.break_flag (Client.pumped d run n) = true ->
             exists b d', Client.drain d run = Client.Returned b d')
      /\ (forall e, Client.drain d run <> Client.Thrown e)).
Proof.
  split.
  - unfold Client.drain. now intros ->.
  - intros Hu. rewrite (drain_usable d run Hu). split; [|split].
    + intros b d' H.
      apply drain_loop_returned in H as (n & Hn & Hd' & Hbefore & Hb & Hstop).
      split; [exists n; auto|]. subst b.
      split; [tauto|]. split.
      * intros Hf. split; [now symmetry|]. destruct Hstop; congruence.
      * intros [Hf _]. now symmetry.
    + apply drain_loop_returns.
    + intros e. clear Hu. revert d.
      induction run as [|ready run IH]; intros d; cbn [Client.drain_loop];
        destruct (Client.drained d); try discriminate;
        destruct (Client.break_flag d); try discriminate. apply IH.
Qed.

(** Scenario E1: the answer to [@Ping] arrives in the first pump; the
    loop is drained and [drain] returns true. *)
Lemma drain_returns_whether_drained_witness :
  exists b d',
    Client.drain Client.dispatcher_ping
      [[Client.FrameRead 0 (Wire.encode Wire.frame_ping)]] = Client.Returned b d'.
Proof.
  destruct (drain_returns_whether_drained Client.dispatcher_ping
              [[Client.FrameRead 0 (Wire.encode Wire.frame_ping)]]) as [_ H].
  destruct (H ltac:(discriminate)) as (_ & Hreturns & _).
  apply (Hreturns 1%nat); [cbn; lia|]. left. vm_compute. reflexivity.
Defined.

(** Scenario E5: three calls in flight, then the socket is lost; the
    three callbacks are served by the synthesized response and [drain]
    returns true. *)
Example drain_connection_lost :
  exists d', Client.drain Client.dispatcher_three_calls [[Client.SocketLost 0]]
             = Client.Returned true d'
             /\ Client.drained d' = true.
Proof. eexists. split; vm_compute; reflexivity. Qed.

(** No connection: [drain] throws. *)
Example drain_no_connections :
  Client.drain (Client.mkDispatcher [] false) [] = Client.Thrown NoConnections.
Proof. reflexivity. Qed.

(** A callback that asks to break: the answer to [Bad] reaches the
    callback of the ping dispatcher, which breaks on failure, while a
    second call is still pending. *)
Example drain_broken :
  exists d',
    Client.drain
      (Client.mkDispatcher
         [Client.mkConnection Client.Ready
            (<[2 := fun r => negb (success r)]> (<[9 := fun _ => false]> ∅))] false)
      [[Client.FrameRead 0 (Wire.encode Wire.frame_bad)]]
    = Client.Returned false d'
    /\ Client.drained d' = false /\ Client.break_flag d' = true.
Proof. eexists. repeat split; vm_compute; reflexivity. Qed.

(* ===================================================================== *)
(** ** Further properties *)
(* ===================================================================== *)

(** Every response a constructor builds holds values of its fields' C++
    types: the default constructor, the parsing constructor on any bytes
    and the stream constructor on any stream establish the
    representation invariant. *)
Theorem constructors_establish_invariant :
  valid_response InvocationResponse_default
  /\ (forall data k r, InvocationResponse_parse data k = Ok r -> valid_response r)
  /\ (forall (Table_read : St (list byte) Table) beh istream r,
         InvocationResponse_from_stream Table_read beh istream = Ok r ->
         valid_response r).
Proof.
  split; [exact default_response_valid|]. split.
  - exact parsed_response_valid.
  - exact streamed_response_valid.
Qed.

(** Whatever bytes the parsing constructor returns on, their first byte
    is 0 and the stored client data and status code are the big-endian
    values at offsets 1 and 10. *)
Theorem parse_stores_big_endian_values (data : list byte) (k : Z) (r : InvocationResponse) :
  InvocationResponse_parse data k = Ok r ->
  Bytes.be_signed (take 1 data) = 0
  /\ clientData r = Bytes.be_signed (take 8 (drop 1 data))
  /\ statusCode r = Bytes.be_signed (take 1 (drop 10 data)).
Proof.
  unfold InvocationResponse_parse.
  destruct (parse_response _) as [[r' b']|e] eqn:Hrun; [|discriminate].
  intros [= <-]. apply parse_response_inv in Hrun as (Hv & Hcd & Hsc & _).
  auto.
Qed.

Lemma parse_stores_big_endian_values_witness :
  Bytes.be_signed (take 1 (Wire.encode Wire.frame_bad)) = 0
  /\ clientData (Wire.response_of (Wire.encode Wire.frame_bad) Wire.frame_bad)
     = Bytes.be_signed (take 8 (drop 1 (Wire.encode Wire.frame_bad)))
  /\ statusCode (Wire.response_of (Wire.encode Wire.frame_bad) Wire.frame_bad)
     = Bytes.be_signed (take 1 (drop 10 (Wire.encode Wire.frame_bad))).
Proof.
  apply (parse_stores_big_endian_values (Wire.encode Wire.frame_bad) 32).
  reflexivity.
Defined.

(** The answer to [Bad], parsed. *)
Example parse_frame_bad :
  InvocationResponse_parse (Wire.encode Wire.frame_bad) 32
  = Ok (mkResponse 2 (-2) "constraint" (-128) EmptyString 7 []).
Proof. reflexivity. Qed.

(** A frame whose first byte is not 0 fails the first assertion. *)
Example parse_wrong_version :
  InvocationResponse_parse
    (Wire.encode (Wire.mkFrame 1 1 0 1 None (-128) None 3 [] 0 [])) 20
  = Err AssertionFailure.
Proof. reflexivity. Qed.

(** A negative result count fails the resize. *)
Example parse_negative_count :
  InvocationResponse_parse
    (Wire.encode (Wire.mkFrame 0 1 0 1 None (-128) None 3 [] (-1) [])) 20
  = Err LengthError.
Proof. reflexivity. Qed.

(** A table announced with fewer than four bytes fails the assertion of
    the loop. *)
Example parse_short_table :
  InvocationResponse_parse
    (Wire.encode (Wire.mkFrame 0 1 0 1 None (-128) None 3 [] 1 [Bytes.be_encode 3 0])) 30
  = Err AssertionFailure.
Proof. reflexivity. Qed.

(** The text of the default response. *)
Example toString_default :
  toString (fun _ _ => EmptyString) InvocationResponse_default
  = ("Status: -4, Connection to the database was lost" ++ endl
     ++ "App Status: -128, " ++ endl
     ++ "Client Data: 0" ++ endl
     ++ "Cluster Round Trip Time: 0" ++ endl)%string.
Proof. reflexivity. Qed.

(* ===================================================================== *)
(** ** The parsing constructor on any bytes: where its cursor goes *)
(* ===================================================================== *)

(** An integer read by the constructor's buffer: the cursor advances by
    the width, inside the limit and inside the region. *)
Lemma getInt_framed n (reader : M Z) data k p v b' :
  reader = bind (get n) (fun bs => ret (Bytes.be_signed bs)) ->
  0 <= p -> 0 < n ->
  reader (buffer_at data k p) = Ok (v, b') ->
  b' = buffer_at data k (p + n)
  /\ p + n <= k /\ p + n <= Z.of_nat (length data)
  /\ v = Bytes.be_signed (take (Z.to_nat n) (drop (Z.to_nat p) data)).
Proof.
  intros Hr Hp Hn H.
  destruct (getInt_inv n reader _ _ _ Hr H) as (-> & -> & Hlen & Hlim).
  unfold bytes_at, buffer_at in *. cbn [m_buffer m_offset m_position m_limit] in *.
  rewrite Z.add_0_l in *. rewrite length_take, length_drop in Hlen.
  pose proof (Nat.le_min_r (Z.to_nat n) (length data - Z.to_nat p)).
  repeat split; try reflexivity.
  - lia.
  - lia.
Qed.

Lemma get_framed n data k p bs b' :
  0 <= p <= Z.of_nat (length data) ->
  get n (buffer_at data k p) = Ok (bs, b') ->
  b' = buffer_at data k (p + n) /\ 0 <= n
  /\ p + n <= k /\ p + n <= Z.of_nat (length data).
Proof.
  intros Hp H. apply get_inv in H as (-> & -> & Hlen & Hn & Hlim).
  unfold bytes_at, buffer_at in *. cbn [m_buffer m_offset m_position m_limit] in *.
  rewrite Z.add_0_l in *. rewrite length_take, length_drop in Hlen.
  pose proof (Nat.le_min_r (Z.to_nat n) (length data - Z.to_nat p)).
  repeat split; try reflexivity; lia.
Qed.

Lemma getString_framed w data k p sw b' :
  0 <= p ->
  getString w (buffer_at data k p) = Ok (sw, b') ->
  exists p', p + 4 <= p' /\ p' <= k /\ p' <= Z.of_nat (length data)
             /\ b' = buffer_at data k p'.
Proof.
  intros Hp H. unfold getString in H.
  apply bind_inv in H as (len & b1 & Hlen & H).
  apply (getInt_framed 4 getInt32 _ _ _ _ _ eq_refl Hp ltac:(lia)) in Hlen
    as (-> & Hk & Hd & _).
  destruct (len =? -1).
  - unfold ret in H. injection H as _ <-. exists (p + 4).
    repeat split; try reflexivity; lia.
  - apply bind_inv in H as (bs & b2 & Hget & H).
    apply get_framed in Hget as (-> & Hn & Hk' & Hd'); [|lia].
    unfold ret in H. injection H as _ <-. exists (p + 4 + len).
    repeat split; try reflexivity; lia.
Qed.

Lemma optional_string_framed (c w : bool) data k p sw b' :
  0 <= p <= k -> p <= Z.of_nat (length data) ->
  (if c then getString w else ret (EmptyString, w)) (buffer_at data k p) = Ok (sw, b') ->
  exists p', p <= p' /\ p' <= k /\ p' <= Z.of_nat (length data)
             /\ b' = buffer_at data k p'.
Proof.
  intros Hp Hd H. destruct c.
  - apply getString_framed in H as (p' & ? & ? & ? & ->); [|lia].
    exists p'. repeat split; try reflexivity; lia.
  - unfold ret in H. injection H as _ <-. exists p. repeat split; try reflexivity; lia.
Qed.

(** The skip of the exception block: four bytes are read at the cursor,
    and the cursor lands somewhere from 0 to the limit. *)
Lemma skip_exception_framed data k p (u : unit) b' :
  0 <= p ->
  (pos <- position ;;
   len <- getInt32 ;;
   set_position (Int.int32_add (Int.int32_add pos 4) len))%st (buffer_at data k p)
  = Ok (u, b') ->
  exists q, 0 <= q <= k /\ b' = buffer_at data k q
            /\ p + 4 <= k /\ p + 4 <= Z.of_nat (length data).
Proof.
  intros Hp H.
  apply bind_inv in H as (pos & b1 & Hpos & H). unfold position in Hpos.
  injection Hpos as <- <-.
  apply bind_inv in H as (len & b2 & Hlen & H).
  apply (getInt_framed 4 getInt32 _ _ _ _ _ eq_refl Hp ltac:(lia)) in Hlen
    as (-> & Hk & Hd & _).
  unfold set_position in H. cbn [buffer_at m_limit m_position] in H.
  destruct (Z.ltb_spec (Int.int32_add (Int.int32_add p 4) len) 0); [discriminate|].
  destruct (Z.ltb_spec k (Int.int32_add (Int.int32_add p 4) len)); [discriminate|].
  cbn [orb] in H. injection H as <-.
  exists (Int.int32_add (Int.int32_add p 4) len). repeat split; auto.
Qed.

(** One turn of the table loop on the constructor's buffer. *)
Lemma read_table_framed data k p ii res res1 b1 :
  k <= Int.INT32_MAX -> 0 <= p <= k ->
  read_table k ii res (buffer_at data k p) = Ok (res1, b1) ->
  let n := Bytes.be_signed (take 4 (drop (Z.to_nat p) data)) in
  4 <= n /\ p + 4 + n <= k
  /\ res1 = <[ii := mkTable (mkBuffer data (p + 4) 0 n n)]> res
  /\ b1 = buffer_at data k (p + 4 + n).
Proof.
  intros Hk Hp H n.
  destruct (read_table_inv k ii res (buffer_at data k p) res1 b1)
    as (H4 & Hres & Hpos & Hlim & Hbuf & Hoff & Hcap); cbn [buffer_at m_position m_limit];
    [lia|lia|assumption|].
  unfold bytes_at in *. cbn [buffer_at m_buffer m_offset m_position m_capacity] in *.
  rewrite Z.add_0_l in *. change (Z.to_nat 4) with 4%nat in *. fold n in H4, Hres, Hpos.
  (* the limit set for the slice stayed inside the capacity *)
  assert (Hin : p + 4 + n <= k).
  { unfold read_table in H.
    apply bind_inv in H as (tl & b2 & Hget & H).
    apply (getInt_framed 4 getInt32 _ _ _ _ _ eq_refl (proj1 Hp) ltac:(lia)) in Hget
      as (-> & Hk4 & _ & ->).
    change (Z.to_nat 4) with 4%nat in H. fold n in H.
    apply bind_inv in H as ([] & b3 & Hassert & H). unfold assert in Hassert.
    rewrite (proj2 (Z.leb_le 4 n) H4) in Hassert.
    unfold ret in Hassert. injection Hassert as <-.
    apply bind_inv in H as (pos & b4 & Hp4 & H). unfold position in Hp4.
    injection Hp4 as <- <-. cbn [buffer_at m_position] in H.
    apply bind_inv in H as ([] & b5 & Hsl & _). unfold set_limit in Hsl.
    cbn [buffer_at m_capacity] in Hsl. fold n in Hsl.
    destruct (Z.ltb_spec (Int.int32_add (p + 4) n) 0); [discriminate|].
    destruct (Z.ltb_spec k (Int.int32_add (p + 4) n)); [discriminate|].
    unfold Int.int32_add in *.
    pose proof (be_signed_range (take 4 (drop (Z.to_nat p) data))) as Hr.
    destruct (Z_le_gt_dec (p + 4 + n) Int.INT32_MAX) as [Hs|Hs].
    - rewrite wrap32_small in * by lia. lia.
    - assert (n < 2147483648).
      { destruct (take 4 (drop (Z.to_nat p) data)) as [|x l] eqn:El.
        - subst n. vm_compute. reflexivity.
        - specialize (Hr ltac:(discriminate)). unfold Int.in_range in Hr.
          assert (length (x :: l) <= 4)%nat by (rewrite <- El, length_take; lia).
          assert (2 ^ (8 * Z.of_nat (length (x :: l)) - 1) <= 2 ^ 31)
            by (apply Z.pow_le_mono_r; lia).
          fold n in Hr. lia. }
      pose proof (wrap32_high (p + 4 + n) ltac:(unfold Int.INT32_MAX in *; lia)). lia. }
  repeat split; try assumption.
  destruct b1; cbn in *; subst. unfold buffer_at. reflexivity.
Qed.

(** The table loop on the constructor's buffer: the tables it builds lie
    one behind the other from the cursor, inside the limit. *)
Lemma read_tables_laid_out data k :
  k <= Int.INT32_MAX ->
  forall n p done junk res' b',
    0 <= p <= k -> (n <= length junk)%nat ->
    read_tables n k (length done) (done ++ junk) (buffer_at data k p) = Ok (res', b') ->
    exists new p',
      res' = done ++ new ++ drop n junk
      /\ length new = n
      /\ tables_laid_out data k p new
      /\ b' = buffer_at data k p'
      /\ p + 8 * Z.of_nat n <= p' <= k.
Proof.
  intros Hk n. induction n as [|n IH]; intros p done junk res' b' Hp Hn H;
    cbn [read_tables] in H.
  - unfold ret in H. injection H as <- <-. exists [], p.
    cbn [app drop tables_laid_out length]. repeat split; try reflexivity; lia.
  - apply bind_inv in H as (res1 & b1 & Hone & H).
    apply read_table_framed in Hone as (H4 & Hin & -> & ->); [|assumption..].
    set (tl := Bytes.be_signed (take 4 (drop (Z.to_nat p) data))) in *.
    destruct junk as [|j junk]; [cbn in Hn; lia|].
    rewrite insert_app_r_alt, Nat.sub_diag in H by lia. cbn [insert list_insert] in H.
    change (done ++ ?x :: junk) with (done ++ [x] ++ junk) in H.
    rewrite app_assoc in H.
    replace (S (length done))
      with (length (done ++ [mkTable (mkBuffer data (p + 4) 0 tl tl)])) in H
      by (rewrite length_app; simpl; lia).
    apply IH in H as (new & p' & -> & Hlen & Hlaid & -> & Hp');
      [|lia|cbn in Hn; lia].
    exists (mkTable (mkBuffer data (p + 4) 0 tl tl) :: new), p'.
    cbn [tables_laid_out table_buffer m_limit length drop].
    rewrite <- !app_assoc. cbn [app].
    repeat split; try reflexivity; try assumption; try lia.
Qed.

(** The constructor up to the table loop, on any bytes: by then it has
    read at least 18 bytes, all inside the given length and inside the
    region, and the loop starts behind a result count from 0 to 32767. *)
Lemma parse_response_cursor data k r b' :
  parse_response (SharedByteBuffer_new data k) = Ok (r, b') ->
  18 <= k /\ 18 <= Z.of_nat (length data)
  /\ exists p0 count,
      2 <= p0 <= k
      /\ 0 <= count <= 32767
      /\ count = Bytes.be_signed (take 2 (drop (Z.to_nat (p0 - 2)) data))
      /\ read_tables (Z.to_nat count) k 0 (replicate (Z.to_nat count) Table_default)
           (buffer_at data k p0) = Ok (m_results r, b').
Proof.
  change (SharedByteBuffer_new data k) with (buffer_at data k 0).
  unfold parse_response. intros H.
  apply bind_inv in H as (version & b1 & Hversion & H).
  apply (getInt_framed 1 getInt8 _ _ _ _ _ eq_refl) in Hversion as (-> & K1 & D1 & _);
    [|lia..].
  apply bind_inv in H as ([] & b2 & Hassert & H). unfold assert in Hassert.
  destruct (version =? 0); [|discriminate]. unfold ret in Hassert. injection Hassert as <-.
  apply bind_inv in H as (cd & b3 & Hcd & H).
  apply (getInt_framed 8 getInt64 _ _ _ _ _ eq_refl) in Hcd as (-> & K2 & D2 & _);
    [|lia..].
  apply bind_inv in H as (pf & b4 & Hpf & H).
  apply (getInt_framed 1 getInt8 _ _ _ _ _ eq_refl) in Hpf as (-> & K3 & D3 & _);
    [|lia..].
  apply bind_inv in H as (sc & b5 & Hsc & H).
  apply (getInt_framed 1 getInt8 _ _ _ _ _ eq_refl) in Hsc as (-> & K4 & D4 & _);
    [|lia..].
  cbv zeta in H.
  apply bind_inv in H as (s1 & b6 & Hs1 & H).
  apply optional_string_framed in Hs1 as (p5 & P5 & K5 & D5 & ->); [|lia..].
  apply bind_inv in H as (asc & b7 & Hasc & H).
  apply (getInt_framed 1 getInt8 _ _ _ _ _ eq_refl) in Hasc as (-> & K6 & D6 & _);
    [|lia..].
  apply bind_inv in H as (s2 & b8 & Hs2 & H).
  apply optional_string_framed in Hs2 as (p7 & P7 & K7 & D7 & ->); [|lia..].
  apply bind_inv in H as ([] & b9 & Hnull & H). unfold assert in Hnull.
  destruct (negb (snd s2)); [|discriminate]. unfold ret in Hnull. injection Hnull as <-.
  apply bind_inv in H as (crt & b10 & Hcrt & H).
  apply (getInt_framed 4 getInt32 _ _ _ _ _ eq_refl) in Hcrt as (-> & K8 & D8 & _);
    [|lia..].
  apply bind_inv in H as ([] & b11 & Hexc & H).
  assert (exists q, 0 <= q <= k /\ b11 = buffer_at data k q
                    /\ (16 <= q \/ (20 <= k /\ 20 <= Z.of_nat (length data))))
    as (q & Hq & -> & Hfar).
  { destruct (negb _) in Hexc.
    - apply skip_exception_framed in Hexc as (q & Q & -> & K9 & D9); [|lia].
      exists q. repeat split; try reflexivity; lia.
    - unfold ret in Hexc. injection Hexc as <-. exists (p7 + 4).
      repeat split; try reflexivity; lia. }
  apply bind_inv in H as (count & b12 & Hcount & H).
  pose proof (getInt_signed_range 2 getInt16 _ _ _ eq_refl ltac:(lia) Hcount) as Rcount.
  apply (getInt_framed 2 getInt16 _ _ _ _ _ eq_refl) in Hcount as (-> & K10 & D10 & Ecount);
    [|lia..].
  apply bind_inv in H as (res0 & b13 & Hres & H).
  apply vector_resize_inv in Hres as (-> & Hmax & ->).
  assert (Hpos : 0 <= count).
  { destruct (Z_lt_dec count 0) as [Hneg|]; [|lia].
    pose proof (to_size_t_negative count Rcount Hneg) as Hbig.
    apply Z.ltb_lt in Hbig. lia. }
  rewrite (to_size_t_small count Rcount Hpos) in H.
  apply bind_inv in H as (startLimit & b14 & Hlimit & H).
  unfold limit in Hlimit. injection Hlimit as <- <-. cbn [buffer_at m_limit] in H.
  apply bind_inv in H as (res1 & b15 & Hloop & H).
  unfold ret in H. injection H as <- <-. cbn [m_results].
  unfold Int.in_range in Rcount. change (2 ^ (8 * 2 - 1)) with 32768 in Rcount.
  split; [lia|]. split; [lia|].
  exists (q + 2), count.
  replace (q + 2 - 2) with q by lia.
  repeat split; try assumption; lia.
Qed.

(** The layout of a response the parsing constructor has built, whatever
    bytes it was built from: the frame has at least 18 bytes, there are at
    most 32767 result tables, and they lie one behind the other inside
    the given length, each behind its own length prefix. *)
Lemma parse_response_layout data k r b' :
  k <= Int.INT32_MAX ->
  parse_response (SharedByteBuffer_new data k) = Ok (r, b') ->
  exists p0 p1,
    2 <= p0
    /\ tables_laid_out data k p0 (m_results r)
    /\ Z.of_nat (length (m_results r))
       = Bytes.be_signed (take 2 (drop (Z.to_nat (p0 - 2)) data))
    /\ b' = buffer_at data k p1
    /\ p0 + 8 * Z.of_nat (length (m_results r)) <= p1 <= k.
Proof.
  intros Hk H.
  apply parse_response_cursor in H
    as (_ & _ & p0 & count & Hp0 & Hcount & Ecount & Hloop).
  change 0%nat with (length (@nil Table)) in Hloop.
  change (replicate (Z.to_nat count) Table_default)
    with ([] ++ replicate (Z.to_nat count) Table_default) in Hloop.
  apply (read_tables_laid_out data k Hk) in Hloop
    as (new & p1 & Hres & Hlen & Hlaid & -> & Hp1);
    [|lia|rewrite length_replicate; lia].
  rewrite drop_ge, app_nil_r in Hres by (rewrite length_replicate; lia).
  cbn [app] in Hres. rewrite Hres, Hlen.
  exists p0, p1. repeat split; try assumption; try lia.
Qed.

Lemma tables_laid_out_lookup data k ts : forall p i t,
  tables_laid_out data k p ts -> ts !! i = Some t ->
  exists q, p <= q
    /\ table_buffer t = mkBuffer data (q + 4) 0 (m_limit (table_buffer t))
                          (m_limit (table_buffer t))
    /\ Bytes.be_signed (take 4 (drop (Z.to_nat q) data)) = m_limit (table_buffer t)
    /\ 4 <= m_limit (table_buffer t)
    /\ tables_laid_out data k (q + 4 + m_limit (table_buffer t)) (drop (S i) ts).
Proof.
  induction ts as [|t0 ts IH]; intros p i t Hl Hi; [discriminate|].
  cbn [tables_laid_out] in Hl. destruct Hl as (Hview & Hpre & H4 & Hrest).
  destruct i as [|i]; cbn in Hi.
  - injection Hi as <-. exists p. repeat split; auto; lia.
  - destruct (IH _ _ _ Hrest Hi) as (q & Hq & ?). exists q. split; [lia|assumption].
Qed.

Lemma tables_laid_out_end data k ts : forall p,
  tables_laid_out data k p ts -> p <= k.
Proof.
  induction ts as [|t ts IH]; intros p Hl; cbn [tables_laid_out] in Hl; [assumption|].
  destruct Hl as (_ & _ & H4 & Hrest). apply IH in Hrest. lia.
Qed.

(** The parsing constructor needs at least 18 bytes: whenever it returns,
    the given length and the region both hold that many. *)
Theorem parse_needs_eighteen_bytes (data : list byte) (k : Z) (r : InvocationResponse) :
  InvocationResponse_parse data k = Ok r ->
  18 <= k /\ 18 <= Z.of_nat (length data).
Proof.
  unfold InvocationResponse_parse.
  destruct (parse_response _) as [[r' b']|e] eqn:Hrun; [|discriminate].
  intros _. apply parse_response_cursor in Hrun as (Hk & Hd & _). auto.
Qed.

Lemma parse_needs_eighteen_bytes_witness :
  18 <= 18 /\ 18 <= Z.of_nat (length (Wire.encode Wire.frame_ping)).
Proof.
  apply (parse_needs_eighteen_bytes (Wire.encode Wire.frame_ping) 18
           (Wire.response_of (Wire.encode Wire.frame_ping) Wire.frame_ping)).
  reflexivity.
Defined.

(** Every result table of a parsed response, whatever bytes it was parsed
    from, is a view into the received region that starts behind its own
    length prefix, spans the at least four bytes the prefix announces and
    ends inside the given length; the tables follow one another without
    overlap, in the order of their indices. *)
Theorem result_tables_lie_in_frame (data : list byte) (k : Z) (r : InvocationResponse) :
  k <= Int.INT32_MAX ->
  InvocationResponse_parse data k = Ok r ->
  (forall i t,
      results r !! i = Some t ->
      m_buffer (table_buffer t) = data
      /\ m_position (table_buffer t) = 0
      /\ m_capacity (table_buffer t) = m_limit (table_buffer t)
      /\ Bytes.be_signed (take 4 (drop (Z.to_nat (m_offset (table_buffer t) - 4)) data))
         = m_limit (table_buffer t)
      /\ 4 <= m_limit (table_buffer t)
      /\ 6 <= m_offset (table_buffer t)
      /\ m_offset (table_buffer t) + m_limit (table_buffer t) <= k)
  /\ (forall i j t t',
         (i < j)%nat -> results r !! i = Some t -> results r !! j = Some t' ->
         m_offset (table_buffer t) + m_limit (table_buffer t) + 4
         <= m_offset (table_buffer t')).
Proof.
  unfold InvocationResponse_parse, results. intros Hk.
  destruct (parse_response _) as [[r' b']|e] eqn:Hrun; [|discriminate].
  intros [= <-].
  apply (parse_response_layout data k r' b' Hk) in Hrun
    as (p0 & p1 & Hp0 & Hlaid & _).
  split.
  - intros i t Hi.
    destruct (tables_laid_out_lookup _ _ _ _ _ _ Hlaid Hi)
      as (q & Hq & Hview & Hpre & H4 & Hrest).
    apply tables_laid_out_end in Hrest.
    rewrite Hview. cbn [m_buffer m_position m_capacity m_limit m_offset].
    replace (q + 4 - 4) with q by lia.
    repeat split; try assumption; lia.
  - intros i j t t' Hij Hi Hj.
    destruct (tables_laid_out_lookup _ _ _ _ _ _ Hlaid Hi)
      as (q & Hq & Hview & _ & H4 & Hrest).
    assert (Hj' : drop (S i) (m_results r') !! (j - S i)%nat = Some t').
    { rewrite lookup_drop. rewrite <- Hj. f_equal. lia. }
    destruct (tables_laid_out_lookup _ _ _ _ _ _ Hrest Hj')
      as (q' & Hq' & Hview' & _).
    rewrite Hview, Hview'. cbn [m_offset m_limit]. lia.
Qed.

Lemma result_tables_lie_in_frame_witness :
  exists t t',
    results (Wire.response_of (Wire.encode Wire.frame_full) Wire.frame_full) !! 0%nat = Some t
    /\ results (Wire.response_of (Wire.encode Wire.frame_full) Wire.frame_full) !! 1%nat
       = Some t'
    /\ m_offset (table_buffer t) + m_limit (table_buffer t) + 4
       <= m_offset (table_buffer t').
Proof.
  destruct (result_tables_lie_in_frame (Wire.encode Wire.frame_full) 67
              (Wire.response_of (Wire.encode Wire.frame_full) Wire.frame_full))
    as [_ Horder].
  - vm_compute. intro; discriminate.
  - reflexivity.
  - eexists. eexists. split; [reflexivity|]. split; [reflexivity|].
    apply (Horder 0%nat 1%nat); [lia|reflexivity|reflexivity].
Defined.

(** A parsed response has at most 32767 result tables, and a table for
    every eight bytes of the given length at most. *)
Theorem result_count_is_bounded (data : list byte) (k : Z) (r : InvocationResponse) :
  k <= Int.INT32_MAX ->
  InvocationResponse_parse data k = Ok r ->
  Z.of_nat (length (results r)) <= 32767
  /\ 8 * Z.of_nat (length (results r)) + 2 <= k.
Proof.
  unfold InvocationResponse_parse, results. intros Hk.
  destruct (parse_response _) as [[r' b']|e] eqn:Hrun; [|discriminate].
  intros [= <-]. split.
  - apply parse_response_cursor in Hrun
      as (_ & _ & p0 & count & _ & Hcount & _ & Hloop).
    apply read_tables_length in Hloop. rewrite length_replicate in Hloop. lia.
  - apply (parse_response_layout data k r' b' Hk) in Hrun
      as (p0 & p1 & Hp0 & _ & _ & _ & Hp1). lia.
Qed.

Lemma result_count_is_bounded_witness :
  Z.of_nat (length (results (Wire.response_of (Wire.encode Wire.frame_full) Wire.frame_full)))
  <= 32767
  /\ 8 * Z.of_nat (length (results (Wire.response_of (Wire.encode Wire.frame_full)
                                      Wire.frame_full))) + 2 <= 67.
Proof.
  apply (result_count_is_bounded (Wire.encode Wire.frame_full) 67).
  - vm_compute. intro; discriminate.
  - reflexivity.
Defined.

Lemma be_signed_byte_zero b : Bytes.be_signed [b] = 0 -> b = "000"%byte.
Proof. destruct b; vm_compute; (reflexivity || discriminate). Qed.

Lemma be_encode_signed_byte b : Bytes.be_encode 1 (Bytes.be_signed [b]) = [b].
Proof. destruct b; reflexivity. Qed.

(** The first step of the parsing constructor: a given length below 1
    is an overrun, and a first byte other than 0 fails the assertion on
    the version, whatever follows. *)
Theorem parse_rejects_other_versions (data : list byte) (k : Z) :
  (k < 1 -> InvocationResponse_parse data k = Err Overrun)
  /\ (forall version,
         1 <= k -> data !! 0%nat = Some version -> version <> "000"%byte ->
         InvocationResponse_parse data k = Err AssertionFailure).
Proof.
  unfold InvocationResponse_parse, parse_response. split.
  - intros Hk. rewrite bind_unfold. unfold getInt8. rewrite bind_unfold.
    unfold get, SharedByteBuffer_new. cbn [m_limit m_position].
    destruct (Z.ltb_spec (k - 0) 1); [reflexivity|lia].
  - intros version Hk Hv Hne.
    destruct data as [|b tl]; [discriminate|]. cbn in Hv. injection Hv as ->.
    change (SharedByteBuffer_new (version :: tl) k) with (buffer_at (version :: tl) k 0).
    rewrite bind_unfold.
    rewrite (getInt8_at (version :: tl) k 0 (Bytes.be_signed [version]) tl).
    + destruct (Z.leb_spec (0 + 1) k); [|lia]. rewrite bind_unfold. unfold assert.
      destruct (Z.eqb_spec (Bytes.be_signed [version]) 0) as [Hz|]; [|reflexivity].
      now apply be_signed_byte_zero in Hz.
    + apply (be_signed_range [version]). discriminate.
    + lia.
    + now rewrite be_encode_signed_byte.
Qed.

Lemma parse_rejects_other_versions_witness :
  InvocationResponse_parse ["001"%byte; "000"%byte] 2 = Err AssertionFailure.
Proof.
  destruct (parse_rejects_other_versions ["001"%byte; "000"%byte] 2) as [_ H].
  apply (H "001"%byte); [lia|reflexivity|discriminate].
Defined.

(* ===================================================================== *)
(** ** The stream form: how writes and reads compose *)
(* ===================================================================== *)

Lemma writeString_app beh ostream str :
  writeString beh ostream str = ostream ++ writeString beh [] str.
Proof.
  unfold writeString. cbn [app].
  destruct (negb _); now rewrite <- ?app_assoc.
Qed.

Lemma write_to_stream_app (Table_write : Table -> list byte) beh r ostream :
  write_to_stream Table_write beh r ostream
  = ostream ++ write_to_stream Table_write beh r [].
Proof.
  unfold write_to_stream. cbv zeta. rewrite !write_tables_concat.
  rewrite !(writeString_app beh (_ ++ _)).
  cbn [app]. now rewrite <- !app_assoc.
Qed.

(** [operator >>] only appends: what the stream held before is a prefix
    of what it holds after, and what is appended does not depend on it;
    so two responses written one after the other are the first one's
    bytes followed by the second one's. *)
Theorem write_to_stream_appends
    (Table_write : Table -> list byte) (big_endian_host : bool)
    (r r2 : InvocationResponse) (ostream : list byte) :
  write_to_stream Table_write big_endian_host r ostream
  = ostream ++ write_to_stream Table_write big_endian_host r []
  /\ write_to_stream Table_write big_endian_host r2
       (write_to_stream Table_write big_endian_host r ostream)
     = ostream ++ write_to_stream Table_write big_endian_host r []
       ++ write_to_stream Table_write big_endian_host r2 [].
Proof.
  split; [apply write_to_stream_app|].
  rewrite (write_to_stream_app _ _ r2), (write_to_stream_app _ _ r ostream).
  now rewrite <- app_assoc.
Qed.

(** A string of at most INT32_MAX bytes, the empty one included, takes
    its size and four bytes in the stream, and [readString] gets it back
    and leaves what follows it in the stream. *)
Theorem string_stream_round_trip (big_endian_host : bool) (str : string) (rest : list byte) :
  Z.of_nat (String.length str) <= Int.INT32_MAX ->
  readString big_endian_host (writeString big_endian_host [] str ++ rest) = Ok (str, rest)
  /\ length (writeString big_endian_host [] str) = (4 + String.length str)%nat.
Proof.
  intros Hfit. rewrite writeString_fits by assumption. cbn [app]. split.
  - rewrite <- app_assoc. now apply readString_written.
  - now rewrite length_app, length_native_encode, length_string_bytes.
Qed.

Lemma string_stream_round_trip_witness :
  readString false (writeString false [] EmptyString ++ ["007"%byte])
  = Ok (EmptyString, ["007"%byte])
  /\ length (writeString false [] EmptyString) = (4 + 0)%nat.
Proof.
  apply (string_stream_round_trip false EmptyString ["007"%byte]).
  vm_compute. intro; discriminate.
Defined.

(** A negative size in the stream makes [readString] throw from the
    resize of the string, before it reads any further. *)
Theorem readString_negative_size (big_endian_host : bool) (size : Z) (rest : list byte) :
  Int.in_range 32 size -> size < 0 ->
  readString big_endian_host (native_encode big_endian_host 4 size ++ rest)
  = Err LengthError.
Proof.
  intros Hr Hneg. unfold readString.
  rewrite bind_unfold, (istream_read_app 4) by (now rewrite length_native_encode).
  rewrite native_signed_encode by (assumption || lia).
  destruct (Z.eqb_spec size 0); [lia|]. cbn [negb].
  destruct (Z.ltb_spec size 0); [reflexivity|lia].
Qed.

Lemma readString_negative_size_witness :
  readString true (native_encode true 4 (-1) ++ []) = Err LengthError.
Proof.
  apply (readString_negative_size true (-1) []); [|lia].
  unfold Int.in_range. split; [vm_compute; intro; discriminate|reflexivity].
Defined.

(** The loop of the stream constructor on the tables that were written:
    it fills the slots with tables related to them by whatever relation
    the table codec keeps. *)
Lemma read_stream_tables_related
    (Table_write : Table -> list byte) (Table_read : St (list byte) Table)
    (P : Table -> Table -> Prop) :
  forall ts,
    (forall t rest, In t ts ->
       exists t', Table_read (Table_write t ++ rest) = Ok (t', rest) /\ P t t') ->
  forall done junk rest,
    (length ts <= length junk)%nat ->
    exists new,
      read_stream_tables Table_read (length ts) (length done) (done ++ junk)
        (concat (map Table_write ts) ++ rest)
      = Ok (done ++ new ++ drop (length ts) junk, rest)
      /\ Forall2 P ts new.
Proof.
  intros ts. induction ts as [|t ts IH]; intros Hcodec done junk rest Hlen;
    cbn [length read_stream_tables map concat].
  - exists []. split; [reflexivity|constructor].
  - destruct junk as [|j junk]; [cbn in Hlen; lia|].
    rewrite <- app_assoc, bind_unfold.
    destruct (Hcodec t (concat (map Table_write ts) ++ rest) ltac:(now left))
      as (t' & -> & Ht).
    rewrite insert_app_r_alt, Nat.sub_diag by lia. cbn [insert list_insert].
    change (done ++ t' :: junk) with (done ++ [t'] ++ junk). rewrite app_assoc.
    replace (S (length done)) with (length (done ++ [t'])) by (rewrite length_app; simpl; lia).
    destruct (IH (fun t0 rest0 Hin => Hcodec t0 rest0 (or_intror Hin))
                (done ++ [t']) junk rest ltac:(cbn in Hlen; lia)) as (new & -> & Hnew).
    exists (t' :: new). split; [|now constructor].
    cbn [drop]. now rewrite <- !app_assoc.
Qed.

(** The stream constructor on what [operator >>] wrote, followed by
    anything: it rebuilds the fields, ends in front of what follows, and
    its tables are related to the written ones as the codec relates
    them. *)
Lemma read_response_written
    (Table_write : Table -> list byte) (Table_read : St (list byte) Table)
    (P : Table -> Table -> Prop) beh r rest :
  (forall t rest, In t (m_results r) ->
     exists t', Table_read (Table_write t ++ rest) = Ok (t', rest) /\ P t t') ->
  valid_response r ->
  exists res',
    read_response Table_read beh (write_to_stream Table_write beh r [] ++ rest)
    = Ok (mkResponse (m_clientData r) (m_statusCode r) (m_statusString r)
            (m_appStatusCode r) (m_appStatusString r) (m_clusterRoundTripTime r) res',
          rest)
    /\ Forall2 P (m_results r) res'.
Proof.
  intros Hcodec Hv. rewrite write_to_stream_layout by assumption.
  rewrite <- !app_assoc. unfold read_response.
  destruct Hv as [Vcd Vsc Vss Vasc Vass Vcrt Vres].
  rewrite bind_unfold, (istream_read_app 1) by (now rewrite length_native_encode).
  rewrite bind_unfold, readString_written by assumption.
  rewrite bind_unfold, (istream_read_app 1) by (now rewrite length_native_encode).
  rewrite bind_unfold, readString_written by assumption.
  rewrite bind_unfold, (istream_read_app 8) by (now rewrite length_native_encode).
  rewrite bind_unfold, (istream_read_app 4) by (now rewrite length_native_encode).
  rewrite bind_unfold, (istream_read_app 8) by (now rewrite length_native_encode).
  cbv zeta. rewrite native_unsigned_encode.
  2:{ unfold Int.vector_max_size, Int.size_t_bits in Vres.
      change (2 ^ (64 - 1)) with 9223372036854775808 in Vres.
      change (2 ^ (8 * Z.of_nat 8)) with 18446744073709551616. lia. }
  rewrite bind_unfold.
  destruct (Z.ltb_spec Int.vector_max_size (Z.of_nat (length (m_results r)))); [lia|].
  unfold ret at 1. cbv beta iota. rewrite bind_unfold, Nat2Z.id.
  destruct (read_stream_tables_related Table_write Table_read P (m_results r) Hcodec []
              (replicate (length (m_results r)) Table_default) rest)
    as (new & Hrun & Hnew); [now rewrite length_replicate|].
  cbn [length app] in Hrun. rewrite Hrun.
  rewrite drop_ge, app_nil_r by (rewrite length_replicate; lia).
  exists new. split; [|assumption].
  unfold ret. rewrite !native_signed_encode by (assumption || lia). reflexivity.
Qed.

(** With a table codec that reads back the tables of the response, the stream
    constructor rebuilds the very response [operator >>] wrote and leaves
    the stream in front of what follows; so of two responses written one
    after the other, reading gives back the first and leaves the bytes of
    the second. *)
Theorem stream_exact_round_trip
    (Table_write : Table -> list byte) (Table_read : St (list byte) Table)
    (big_endian_host : bool) (r r2 : InvocationResponse) (rest : list byte) :
  (forall t rest, In t (results r) -> Table_read (Table_write t ++ rest) = Ok (t, rest)) ->
  valid_response r ->
  read_response Table_read big_endian_host
    (write_to_stream Table_write big_endian_host r [] ++ rest) = Ok (r, rest)
  /\ read_response Table_read big_endian_host
       (write_to_stream Table_write big_endian_host r2
          (write_to_stream Table_write big_endian_host r []))
     = Ok (r, write_to_stream Table_write big_endian_host r2 []).
Proof.
  intros Hcodec Hv.
  assert (Hone : forall rest,
             read_response Table_read big_endian_host
               (write_to_stream Table_write big_endian_host r [] ++ rest) = Ok (r, rest)).
  { intros rest0.
    destruct (read_response_written Table_write Table_read eq big_endian_host r rest0)
      as (res' & Hrun & Hres); [|assumption|].
    - intros t rest1 Hin. exists t. split; [now apply Hcodec|reflexivity].
    - apply list_eq_Forall2 in Hres. subst res'. rewrite Hrun. now destruct r. }
  split; [apply Hone|].
  rewrite write_to_stream_app. apply Hone.
Qed.

Lemma stream_exact_round_trip_witness :
  read_response (ret Table_default) false
    (write_to_stream (fun _ => []) false response_sample [] ++ ["009"%byte])
  = Ok (response_sample, ["009"%byte]).
Proof.
  apply (stream_exact_round_trip (fun _ => [])
           (ret Table_default) false
           response_sample response_sample ["009"%byte]).
  - intros t rest [<-|[]]. reflexivity.
  - exact sample_response_valid.
Defined.

(** A response the parsing constructor built from received bytes can be
    written to a stream and read back: the stream constructor then
    returns, with the same status codes, strings, client data, round-trip
    time and number of results. *)
Theorem parsed_response_survives_stream
    (Table_write : Table -> list byte) (Table_read : St (list byte) Table)
    (big_endian_host : bool) (data : list byte) (k : Z) (r : InvocationResponse) :
  InvocationResponse_parse data k = Ok r ->
  (forall t rest, In t (results r) ->
     exists t', Table_read (Table_write t ++ rest) = Ok (t', rest)) ->
  exists r',
    InvocationResponse_from_stream Table_read big_endian_host
      (write_to_stream Table_write big_endian_host r []) = Ok r'
    /\ statusCode r' = statusCode r
    /\ statusString r' = statusString r
    /\ appStatusCode r' = appStatusCode r
    /\ appStatusString r' = appStatusString r
    /\ clientData r' = clientData r
    /\ clusterRoundTripTime r' = clusterRoundTripTime r
    /\ length (results r') = length (results r).
Proof.
  intros Hparse Hcodec. apply parsed_response_valid in Hparse.
  destruct (read_response_written Table_write Table_read (fun _ _ => True)
              big_endian_host r []) as (res' & Hrun & Hres); [|assumption|].
  - intros t rest Hin. destruct (Hcodec t rest Hin) as [t' Ht]. eauto.
  - rewrite app_nil_r in Hrun. unfold InvocationResponse_from_stream. rewrite Hrun.
    eexists. split; [reflexivity|]. apply Forall2_length in Hres.
    repeat split. symmetry. exact Hres.
Qed.

Lemma parsed_response_survives_stream_witness :
  exists r',
    InvocationResponse_from_stream (ret Table_default) true
      (write_to_stream (fun _ => []) true
         (Wire.response_of (Wire.encode Wire.frame_bad) Wire.frame_bad) []) = Ok r'
    /\ statusCode r' = -2
    /\ statusString r' = "constraint"%string
    /\ appStatusCode r' = -128
    /\ appStatusString r' = EmptyString
    /\ clientData r' = 2
    /\ clusterRoundTripTime r' = 7
    /\ length (results r') = 0%nat.
Proof.
  apply (parsed_response_survives_stream (fun _ => []) (ret Table_default) true
           (Wire.encode Wire.frame_bad) 32
           (Wire.response_of (Wire.encode Wire.frame_bad) Wire.frame_bad)).
  - reflexivity.
  - intros t rest []. 
Defined.

(* ===================================================================== *)
(** ** The stream form is canonical *)
(* ===================================================================== *)

Lemma be_encode_mod n z :
  Bytes.be_encode n (z mod 2 ^ (8 * Z.of_nat n)) = Bytes.be_encode n z.
Proof.
  rewrite <- be_decode_encode.
  rewrite <- (length_be_encode n z) at 1. apply be_encode_decode.
Qed.

Lemma be_encode_signed l :
  l <> [] -> Bytes.be_encode (length l) (Bytes.be_signed l) = l.
Proof.
  intros Hl. unfold Bytes.be_signed.
  rewrite <- be_encode_mod, <- (wrap_mod (8 * Z.of_nat (length l))) .
  assert (Hw : 0 < 8 * Z.of_nat (length l)) by (destruct l; [congruence|simpl length; lia]).
  pose proof (be_decode_range l) as Hr.
  rewrite (Z.mod_small (Bytes.be_decode l)) by assumption.
  unfold Int.wrap. rewrite (Z.mod_small (Bytes.be_decode l)) by assumption.
  destruct (Z.ltb_spec (Bytes.be_decode l) (2 ^ (8 * Z.of_nat (length l) - 1))).
  - rewrite Z.mod_small by assumption. apply be_encode_decode.
  - replace ((Bytes.be_decode l - 2 ^ (8 * Z.of_nat (length l)))
             mod 2 ^ (8 * Z.of_nat (length l))) with (Bytes.be_decode l).
    + apply be_encode_decode.
    + apply Z.mod_unique with (q := -1); lia.
Qed.

Lemma native_encode_signed beh l :
  l <> [] -> native_encode beh (length l) (native_signed beh l) = l.
Proof.
  intros Hl. unfold native_encode, native_signed. destruct beh.
  - now apply be_encode_signed.
  - rewrite <- (length_rev l), be_encode_signed, rev_involutive; [reflexivity|].
    intros Hnil. apply (f_equal (@length byte)) in Hnil. rewrite length_rev in Hnil.
    destruct l; [congruence|discriminate].
Qed.

Lemma native_encode_unsigned beh l :
  native_encode beh (length l) (native_unsigned beh l) = l.
Proof.
  unfold native_encode, native_unsigned. destruct beh.
  - apply be_encode_decode.
  - now rewrite <- (length_rev l), be_encode_decode, rev_involutive.
Qed.

Lemma istream_read_split n s bs s' :
  0 <= n -> istream_read n s = Ok (bs, s') ->
  s = bs ++ s' /\ length bs = Z.to_nat n.
Proof.
  unfold istream_read. intros Hn.
  destruct (Z.ltb_spec (Z.of_nat (length s)) n); [discriminate|].
  intros [= <- <-]. split; [now rewrite take_drop|].
  rewrite length_take. lia.
Qed.

Lemma readString_canonical beh s str s' :
  readString beh s = Ok (str, s') -> writeString beh [] str ++ s' = s.
Proof.
  unfold readString. intros H. apply bind_inv in H as (sz & s1 & Hsz & H).
  apply istream_read_split in Hsz as [-> Hlen]; [|lia].
  assert (Hne : sz <> []) by (intros ->; discriminate).
  pose proof (native_signed_range beh 4 sz ltac:(lia) ltac:(lia)) as Hr.
  unfold Int.in_range in Hr. change (2 ^ (8 * 4 - 1)) with 2147483648 in Hr.
  pose proof (native_encode_signed beh sz Hne) as Henc. rewrite Hlen in Henc.
  change (Z.to_nat 4) with 4%nat in Henc.
  destruct (Z.eqb_spec (native_signed beh sz) 0) as [Hz|Hnz]; cbn [negb] in H.
  - unfold ret in H. injection H as <- <-.
    rewrite writeString_fits by (vm_compute; intro; discriminate).
    change (Z.of_nat (String.length EmptyString)) with 0.
    change (Bytes.string_bytes EmptyString) with (@nil byte).
    rewrite <- Hz, Henc. cbn [app]. now rewrite app_nil_r.
  - destruct (Z.ltb_spec (native_signed beh sz) 0); [discriminate|].
    apply bind_inv in H as (bs & s2 & Hbs & H).
    apply istream_read_split in Hbs as [-> Hlen']; [|assumption].
    unfold ret in H. injection H as <- <-.
    rewrite writeString_fits
      by (rewrite length_bytes_string; unfold Int.INT32_MAX; lia).
    rewrite length_bytes_string, string_bytes_string, Hlen', Z2Nat.id by assumption.
    cbn [app]. now rewrite Henc, <- app_assoc.
Qed.

Lemma read_stream_tables_canonical
    (Table_write : Table -> list byte) (Table_read : St (list byte) Table) :
  (forall s t s', Table_read s = Ok (t, s') -> s = Table_write t ++ s') ->
  forall n done junk s res' s',
    (n <= length junk)%nat ->
    read_stream_tables Table_read n (length done) (done ++ junk) s = Ok (res', s') ->
    exists new,
      res' = done ++ new ++ drop n junk
      /\ length new = n
      /\ s = concat (map Table_write new) ++ s'.
Proof.
  intros Hcodec n. induction n as [|n IH]; intros done junk s res' s' Hlen H;
    cbn [read_stream_tables] in H.
  - unfold ret in H. injection H as <- <-. exists []. auto.
  - apply bind_inv in H as (t & s1 & Ht & H). apply Hcodec in Ht as ->.
    destruct junk as [|j junk]; [cbn in Hlen; lia|].
    rewrite insert_app_r_alt, Nat.sub_diag in H by lia. cbn [insert list_insert] in H.
    change (done ++ t :: junk) with (done ++ [t] ++ junk) in H. rewrite app_assoc in H.
    replace (S (length done)) with (length (done ++ [t])) in H
      by (rewrite length_app; simpl; lia).
    apply IH in H as (new & -> & Hnew & ->); [|cbn in Hlen; lia].
    exists (t :: new). cbn [map concat drop length].
    rewrite <- !app_assoc. cbn [app]. auto.
Qed.

(** The stream form is canonical: with a table codec that reads only
    what it would write, whatever stream the stream constructor returns
    on starts with exactly the bytes [operator >>] writes for the
    response it built. *)
Theorem stream_read_then_write
    (Table_write : Table -> list byte) (Table_read : St (list byte) Table)
    (big_endian_host : bool) (istream rest : list byte) (r : InvocationResponse) :
  (forall s t s', Table_read s = Ok (t, s') -> s = Table_write t ++ s') ->
  read_response Table_read big_endian_host istream = Ok (r, rest) ->
  write_to_stream Table_write big_endian_host r [] ++ rest = istream.
Proof.
  intros Hcodec H. unfold read_response in H.
  apply bind_inv in H as (sc & s1 & Hsc & H).
  apply istream_read_split in Hsc as [-> Lsc]; [|lia].
  apply bind_inv in H as (ss & s2 & Hss & H). apply readString_canonical in Hss as <-.
  apply bind_inv in H as (asc & s3 & Hasc & H).
  apply istream_read_split in Hasc as [-> Lasc]; [|lia].
  apply bind_inv in H as (ass & s4 & Hass & H). apply readString_canonical in Hass as <-.
  apply bind_inv in H as (cd & s5 & Hcd & H).
  apply istream_read_split in Hcd as [-> Lcd]; [|lia].
  apply bind_inv in H as (crt & s6 & Hcrt & H).
  apply istream_read_split in Hcrt as [-> Lcrt]; [|lia].
  apply bind_inv in H as (sz & s7 & Hsz & H).
  apply istream_read_split in Hsz as [-> Lsz]; [|lia].
  cbv zeta in H.
  apply bind_inv in H as (res0 & s8 & Hres0 & H).
  destruct (Z.ltb_spec Int.vector_max_size (native_unsigned big_endian_host sz));
    [discriminate|].
  unfold ret in Hres0. injection Hres0 as <- <-.
  apply bind_inv in H as (res1 & s9 & Hloop & H).
  change 0%nat with (length (@nil Table)) in Hloop.
  change (replicate ?n Table_default) with ([] ++ replicate n Table_default) in Hloop.
  apply (read_stream_tables_canonical Table_write Table_read Hcodec) in Hloop
    as (new & -> & Hnew & ->); [|now rewrite length_replicate].
  rewrite drop_ge, app_nil_r in H by (rewrite length_replicate; lia). cbn [app] in H.
  unfold ret in H. injection H as <- <-.
  unfold write_to_stream. cbv zeta.
  cbn [m_clientData m_statusCode m_statusString m_appStatusCode m_appStatusString
       m_clusterRoundTripTime m_results].
  rewrite write_tables_concat, !(writeString_app big_endian_host (_ ++ _)).
  assert (Hne : forall l : list byte, (0 < length l)%nat -> l <> [])
    by (intros l Hl ->; simpl in Hl; lia).
  assert (E1 : native_encode big_endian_host 1 (native_signed big_endian_host sc) = sc)
    by (rewrite <- (native_encode_signed big_endian_host sc) at 2;
        [now rewrite Lsc|apply Hne; rewrite Lsc; simpl; lia]).
  assert (E2 : native_encode big_endian_host 1 (native_signed big_endian_host asc) = asc)
    by (rewrite <- (native_encode_signed big_endian_host asc) at 2;
        [now rewrite Lasc|apply Hne; rewrite Lasc; simpl; lia]).
  assert (E3 : native_encode big_endian_host 8 (native_signed big_endian_host cd) = cd)
    by (rewrite <- (native_encode_signed big_endian_host cd) at 2;
        [now rewrite Lcd|apply Hne; rewrite Lcd; simpl; lia]).
  assert (E4 : native_encode big_endian_host 4 (native_signed big_endian_host crt) = crt)
    by (rewrite <- (native_encode_signed big_endian_host crt) at 2;
        [now rewrite Lcrt|apply Hne; rewrite Lcrt; simpl; lia]).
  assert (E5 : native_encode big_endian_host 8 (Z.of_nat (length new)) = sz).
  { rewrite Hnew, Z2Nat.id
      by (unfold native_unsigned; apply be_decode_range).
    rewrite <- (native_encode_unsigned big_endian_host sz) at 2. now rewrite Lsz. }
  rewrite E1, E2, E3, E4, E5. cbn [app]. now rewrite <- !app_assoc.
Qed.

Lemma stream_read_then_write_witness :
  write_to_stream (fun _ => []) false
    (mkResponse 0 0 EmptyString 0 EmptyString 0 []) [] ++ ["007"%byte]
  = repeat "000"%byte 30 ++ ["007"%byte].
Proof.
  apply (stream_read_then_write (fun _ => []) (ret Table_default) false
           (repeat "000"%byte 30 ++ ["007"%byte]) ["007"%byte]
           (mkResponse 0 0 EmptyString 0 EmptyString 0 [])).
  - intros s t s' [= <- <-]. reflexivity.
  - reflexivity.
Defined.

(* ===================================================================== *)
(** ** The status codes and the status of a response *)
(* ===================================================================== *)

(** The five status codes are pairwise distinct and fit the [int8_t]
    field that stores them, and a response that carries one of them
    succeeds exactly when it is SUCCESS and fails exactly when it is one
    of the other four. *)
Theorem status_codes_are_distinct :
  (forall c c', StatusCode_value c = StatusCode_value c' -> c = c')
  /\ (forall c, Int.in_range 8 (StatusCode_value c)
                /\ Int.wrap 8 (StatusCode_value c) = StatusCode_value c)
  /\ (forall c r,
         statusCode r = StatusCode_value c ->
         (success r = true <-> c = STATUS_CODE_SUCCESS)
         /\ (failure r = true <-> c <> STATUS_CODE_SUCCESS)).
Proof.
  split; [|split].
  - intros [] []; cbn; intros H; (reflexivity || discriminate).
  - intros []; split; try reflexivity;
      unfold Int.in_range; cbn; split; (reflexivity || (intro; discriminate)).
  - intros c r Hc. unfold success, failure. unfold statusCode in Hc. rewrite Hc.
    destruct c; cbn; split; split; intros H;
      try reflexivity; try discriminate; try congruence.
Qed.
